(** * jinjx-js: the reactive core (Signal, SignalList, Scope)

    A shallow embedding of [src/reactive/jinjx-signal.ts],
    [reactive/jinjx-signal-list.ts] and [dom/jinjx-scope.ts], with the
    factories and [propState] of [src/misc.ts], [JinjxElement.event] of
    [dom/jinjx-element.ts] and the earlier signal class.

    Conventions of the embedding.
    - A JavaScript [Set] of callbacks is a duplicate-free list in insertion
      order (the order in which [for ... of] visits it).
    - Watchers of a Signal or SignalList are opaque callbacks that return
      normally and do not call back into the object that notifies them; what
      they are handed is recorded in a log of calls.
    - Cleanup actions of a Scope may throw; an exception leaves the [for]
      loop and the method.
    - Arrays are heap objects: a location in a store of sequences.  A method
      that stores, passes or returns an array stores, passes or returns its
      location, so that aliasing is visible.
    - Strict (in)equality [!==] on elements is decidable equality of the
      element type (no NaN).
    - Of the DOM there is what the code uses: the event listener list of
      an element, on which [addEventListener] skips a listener that is
      listed and [removeEventListener] takes it off, and the observers
      that observe an element, to which the platform hands mutation
      records.  Functions given to [effect] and the callbacks of
      [propState] leave both alone. *)

From stdpp Require Import base decidable option list strings gmap sorting.
From Stdlib Require Import ZArith.

Open Scope Z_scope.

(* ===================================================================== *)
(** ** Signal: [src/reactive/jinjx-signal.ts]                             *)
(* ===================================================================== *)

Module Signal.
Section Signal.
Context {T W : Type} `{EqDecision T, EqDecision W}.

(** [class JinjxSignal<T>]: the protected [_value] and the private
    [listeners: Set<Watcher<T>>]. *)
Record JinjxSignal : Type := mkSignal {
  _value : T;
  listeners : list W
}.

(** One invocation [watcher(newVal, oldVal)].  [c_seen] is what a
    read-back of [signal.value] returns while the watcher runs. *)
Record call : Type := Call {
  c_watcher : W;
  c_new : T;
  c_old : T;
  c_seen : T
}.

(** [constructor(initialValue)] *)
Definition new (initialValue : T) : JinjxSignal :=
  mkSignal initialValue [].

(** [get value()] *)
Definition value (s : JinjxSignal) : T := _value s.

(** [protected changed(newVal, oldVal) { return newVal !== oldVal; }] *)
Definition changed (newVal oldVal : T) : bool :=
  bool_decide (newVal ≠ oldVal).

(** [Set.prototype.add] and [Set.prototype.delete] *)
Definition set_add (w : W) (l : list W) : list W :=
  if decide (w ∈ l) then l else l ++ [w].

Definition set_delete (w : W) (l : list W) : list W :=
  filter (λ x, x ≠ w) l.

(** [listens(watcher)] and [off(watcher)] *)
Definition listens (watcher : W) (s : JinjxSignal) : JinjxSignal :=
  mkSignal (_value s) (set_add watcher (listeners s)).

Definition off (watcher : W) (s : JinjxSignal) : JinjxSignal :=
  mkSignal (_value s) (set_delete watcher (listeners s)).

(** [notify(newVal, oldVal)]: [for (const watcher of this.listeners)
    watcher(newVal, oldVal);] run on the object [s]. *)
Fixpoint for_of (ws : list W) (s : JinjxSignal) (newVal oldVal : T)
  : list call :=
  match ws with
  | [] => []
  | watcher :: rest =>
      Call watcher newVal oldVal (value s) :: for_of rest s newVal oldVal
  end.

Definition notify (s : JinjxSignal) (newVal oldVal : T) : list call :=
  for_of (listeners s) s newVal oldVal.

(** [set value(newVal)].  [chg] is the [changed] method the object
    dispatches to: [changed] above unless a subclass overrides it.  The
    result is the object after the call and the watcher calls made. *)
Definition set_value (chg : T → T → bool) (newVal : T) (s : JinjxSignal)
  : JinjxSignal * list call :=
  if negb (chg newVal (_value s)) then (s, [])
  else
    let oldVal := _value s in
    let s' := mkSignal newVal (listeners s) in
    (s', notify s' newVal oldVal).

(** How often watcher [w] was invoked in a log of calls. *)
Definition invocations (w : W) (calls : list call) : nat :=
  length (filter (λ c, c_watcher c = w) calls).

(** A run of writes [s.value = v], for the [v] of [vs] in order: the object
    afterwards and the calls made. *)
Fixpoint writes (chg : T → T → bool) (vs : list T) (s : JinjxSignal)
  : JinjxSignal * list call :=
  match vs with
  | [] => (s, [])
  | v :: rest =>
      ((writes chg rest (set_value chg v s).1).1,
       (set_value chg v s).2 ++ (writes chg rest (set_value chg v s).1).2)
  end.

(** The writes of [vs] that change the value, starting from the value
    [cur]: each with the value it replaces. *)
Fixpoint changes (chg : T → T → bool) (cur : T) (vs : list T)
  : list (T * T) :=
  match vs with
  | [] => []
  | v :: rest =>
      if chg v cur then (v, cur) :: changes chg v rest
      else changes chg cur rest
  end.

(** The public calls on a signal, and a run of them: the object afterwards
    and the watcher calls made. *)
Inductive operation : Type :=
| Listens (watcher : W)
| Off (watcher : W)
| SetValue (newVal : T).

Definition perform (chg : T → T → bool) (o : operation) (s : JinjxSignal)
  : JinjxSignal * list call :=
  match o with
  | Listens watcher => (listens watcher s, [])
  | Off watcher => (off watcher s, [])
  | SetValue newVal => set_value chg newVal s
  end.

Fixpoint perform_all (chg : T → T → bool) (os : list operation)
    (s : JinjxSignal) : JinjxSignal * list call :=
  match os with
  | [] => (s, [])
  | o :: rest =>
      ((perform_all chg rest (perform chg o s).1).1,
       (perform chg o s).2 ++ (perform_all chg rest (perform chg o s).1).2)
  end.

End Signal.
Arguments JinjxSignal : clear implicits.
Arguments call : clear implicits.
Arguments operation : clear implicits.
End Signal.

(* ===================================================================== *)
(** ** Scope: [dom/jinjx-scope.ts]                                        *)
(* ===================================================================== *)

Module Scope.
Section Scope.
(** [Host] stands for [JinjxElement]; [Action] for a [VoidFunction]. *)
Context {Host Action : Type}.

Record JinjxScope : Type := mkScope {
  host : Host;
  _effectStore : list Action
}.

(** How a call ends. *)
Inductive completion : Type := Returned | Thrown.

(** [constructor(private host)], [_effectStore = []] *)
Definition new (h : Host) : JinjxScope := mkScope h [].

(** [effect(effectFn) { this._effectStore.push(effectFn); }] *)
Definition effect (effectFn : Action) (s : JinjxScope) : JinjxScope :=
  mkScope (host s) (_effectStore s ++ [effectFn]).

(** [delegate(...)]: [disposeFn] is what [this.host.event(eventName,
    computedHandler)] returned; it is pushed on the store. *)
Definition delegate (disposeFn : Action) (s : JinjxScope) : JinjxScope :=
  mkScope (host s) (_effectStore s ++ [disposeFn]).

(** [for (const effect of this._effectStore) effect();] under the
    behaviour [throws] of the actions: the actions invoked, in order, and
    how the loop ended. *)
Fixpoint for_of (throws : Action → bool) (store : list Action)
  : list Action * completion :=
  match store with
  | [] => ([], Returned)
  | effect :: rest =>
      if throws effect then ([effect], Thrown)
      else let '(invoked, c) := for_of throws rest in
           (effect :: invoked, c)
  end.

(** [dispose()]: the scope afterwards, the actions invoked and the
    completion.  The assignment [this._effectStore = []] is reached only
    when the loop returned. *)
Definition dispose (throws : Action → bool) (s : JinjxScope)
  : JinjxScope * list Action * completion :=
  match for_of throws (_effectStore s) with
  | (invoked, Returned) => (mkScope (host s) [], invoked, Returned)
  | (invoked, Thrown) => (s, invoked, Thrown)
  end.

(** [enter(callback) { callback(this.host); }] *)
Definition enter {R : Type} (callback : Host → R) (s : JinjxScope) : R :=
  callback (host s).

End Scope.
Arguments JinjxScope : clear implicits.
End Scope.

(* ===================================================================== *)
(** ** SignalList: [reactive/jinjx-signal-list.ts]                        *)
(* ===================================================================== *)

Module SignalList.

(** A reference to an array object. *)
Abbreviation loc := positive.

Section SignalList.
Context {T W : Type} `{EqDecision T, EqDecision W}.

(** [class JinjxSignalList<T>]: [data] and [_frozenValue] hold references
    to arrays; [watchers] is a [Set]. *)
Record JinjxSignalList : Type := mkList {
  data : loc;
  watchers : list W;
  _frozen : bool;
  _frozenValue : loc
}.

(** One invocation [w(newVal, oldVal)]: the two references handed to the
    watcher and what the arrays hold at that moment. *)
Record call : Type := Call {
  c_watcher : W;
  c_new : loc;
  c_old : loc;
  c_newval : list T;
  c_oldval : list T
}.

(** The object, the arrays of the heap and the watcher calls so far. *)
Record config : Type := Config {
  this : JinjxSignalList;
  heap : gmap loc (list T);
  log : list call
}.

(** *** State-passing computations *)

Definition M (A : Type) : Type := config → A * config.

#[global] Instance M_ret : MRet M := λ A x σ, (x, σ).
#[global] Instance M_bind : MBind M :=
  λ A B f m σ, let '(x, σ') := m σ in f x σ'.

Definition get {A} (field : JinjxSignalList → A) : M A :=
  λ σ, (field (this σ), σ).

Definition put (f : JinjxSignalList → JinjxSignalList) : M unit :=
  λ σ, (tt, Config (f (this σ)) (heap σ) (log σ)).

Definition set_data (l : loc) : M unit :=
  put (λ o, mkList l (watchers o) (_frozen o) (_frozenValue o)).
Definition set_watchers (ws : list W) : M unit :=
  put (λ o, mkList (data o) ws (_frozen o) (_frozenValue o)).
Definition set_frozen (b : bool) : M unit :=
  put (λ o, mkList (data o) (watchers o) b (_frozenValue o)).
Definition set_frozenValue (l : loc) : M unit :=
  put (λ o, mkList (data o) (watchers o) (_frozen o) l).

(** Reading, writing in place and allocating an array. *)
Definition load (l : loc) : M (list T) :=
  λ σ, (heap σ !!! l, σ).

Definition store (l : loc) (v : list T) : M unit :=
  λ σ, (tt, Config (this σ) (<[l := v]> (heap σ)) (log σ)).

Definition alloc (v : list T) : M loc :=
  λ σ, let l := fresh (dom (heap σ)) in
       (l, Config (this σ) (<[l := v]> (heap σ)) (log σ)).

(** Calling a watcher with two array references. *)
Definition invoke (w : W) (newVal oldVal : loc) : M unit :=
  λ σ, (tt, Config (this σ) (heap σ)
              (log σ ++ [Call w newVal oldVal
                           (heap σ !!! newVal) (heap σ !!! oldVal)])).

(** *** Array methods on sequences *)

(** [arr.filter(callback)]: [callback(item, index, arr)]. *)
Fixpoint filter_from (callback : T → nat → list T → bool) (arr : list T)
    (index : nat) (l : list T) : list T :=
  match l with
  | [] => []
  | item :: rest =>
      if callback item index arr
      then item :: filter_from callback arr (S index) rest
      else filter_from callback arr (S index) rest
  end.

Definition filter_list (callback : T → nat → list T → bool)
    (arr : list T) : list T :=
  filter_from callback arr 0%nat arr.

(** [arr.includes(item)] *)
Definition includes (arr : list T) (item : T) : bool :=
  bool_decide (item ∈ arr).

(** [arr.splice(start, deleteCount, ...items)]: the clamped start and
    delete count, the removed elements and the array afterwards. *)
Definition actual_start (len : nat) (start : Z) : nat :=
  Z.to_nat (if decide (start < 0) then Z.max (Z.of_nat len + start) 0
            else Z.min start (Z.of_nat len)).

Definition actual_delete_count (len : nat) (start deleteCount : Z) : nat :=
  Z.to_nat (Z.min (Z.max deleteCount 0)
                   (Z.of_nat len - Z.of_nat (actual_start len start))).

Definition splice_removed (v : list T) (start deleteCount : Z) : list T :=
  take (actual_delete_count (length v) start deleteCount)
       (drop (actual_start (length v) start) v).

Definition splice_list (v : list T) (start deleteCount : Z)
    (items : list T) : list T :=
  take (actual_start (length v) start) v ++ items ++
  drop (actual_start (length v) start
        + actual_delete_count (length v) start deleteCount) v.

(** [arr.sort(compareFn)]: the stable sort, by insertion from the right.
    [compareFn] is the comparator in effect, negative or zero when its
    first argument may stay before its second.  The language fixes what
    [sort] leaves for a consistent comparison function ([consistent]
    below): the one rearrangement that is sorted and keeps the items that
    rank equal in their order, which is what this insertion computes.
    For any other function the order is left to the engine; it is a
    rearrangement still, and no statement about the order covers it. *)
Fixpoint insert_sorted (compareFn : T → T → Z) (x : T) (l : list T)
  : list T :=
  match l with
  | [] => [x]
  | y :: rest =>
      if decide (compareFn x y ≤ 0) then x :: l
      else y :: insert_sorted compareFn x rest
  end.

Fixpoint sort_list (compareFn : T → T → Z) (l : list T) : list T :=
  match l with
  | [] => []
  | x :: rest => insert_sorted compareFn x (sort_list compareFn rest)
  end.

(** [arr.findIndex(callback)] and [arr.find(callback)] *)
Fixpoint find_from (callback : T → nat → list T → bool) (arr : list T)
    (index : nat) (l : list T) : option (nat * T) :=
  match l with
  | [] => None
  | item :: rest =>
      if callback item index arr then Some (index, item)
      else find_from callback arr (S index) rest
  end.

(** [arraysShallowEqual(arr1, arr2)]: the loop from [i] with [n]
    iterations left; [arr[i]] is [arr !! i]. *)
Fixpoint shallow_loop (arr1 arr2 : list T) (i n : nat) : bool :=
  match n with
  | O => true
  | S n' =>
      if bool_decide (arr1 !! i ≠ arr2 !! i) then false
      else shallow_loop arr1 arr2 (S i) n'
  end.

Definition arraysShallowEqual (arr1 arr2 : list T) : bool :=
  if bool_decide (length arr1 ≠ length arr2) then false
  else shallow_loop arr1 arr2 0%nat (length arr1).

(** *** Array methods on heap arrays *)

(** [arr.slice()] and [[...arr]]: a new array with the same elements. *)
Definition slice (arr : loc) : M loc :=
  v ← load arr; alloc v.

Definition array_push (arr : loc) (items : list T) : M nat :=
  v ← load arr; store arr (v ++ items);; mret (length (v ++ items)).

Definition array_pop (arr : loc) : M (option T) :=
  v ← load arr; store arr (removelast v);; mret (last v).

Definition array_unshift (arr : loc) (items : list T) : M nat :=
  v ← load arr; store arr (items ++ v);; mret (length (items ++ v)).

Definition array_shift (arr : loc) : M (option T) :=
  v ← load arr; store arr (tail v);; mret (head v).

(** The array that [splice] returns is built by the call and kept by
    nobody else: it is returned by value. *)
Definition array_splice (arr : loc) (start deleteCount : Z)
    (items : list T) : M (list T) :=
  v ← load arr;
  store arr (splice_list v start deleteCount items);;
  mret (splice_removed v start deleteCount).

Definition array_sort (arr : loc) (compareFn : T → T → Z) : M unit :=
  v ← load arr; store arr (sort_list compareFn v).

Definition array_filter (arr : loc)
    (callback : T → nat → list T → bool) : M loc :=
  v ← load arr; alloc (filter_list callback v).

(** *** The class *)

(** [constructor(initial: T[] = [])] on a heap [h]: the field initialiser
    [_frozenValue = []] runs first, then [this.data = [...initial]]. *)
Definition new (initial : option loc) (h : gmap loc (list T)) : config :=
  let fv := fresh (dom h) in
  let h1 := <[fv := []]> h in
  let d := fresh (dom h1) in
  let init := match initial with Some a => h1 !!! a | None => [] end in
  Config (mkList d [] false fv) (<[d := init]> h1) [].

(** [notify(newVal, oldVal)] *)
Fixpoint for_of (ws : list W) (newVal oldVal : loc) : M unit :=
  match ws with
  | [] => mret tt
  | w :: rest => invoke w newVal oldVal;; for_of rest newVal oldVal
  end.

Definition notify (newVal oldVal : loc) : M unit :=
  frozen ← get _frozen;
  if (frozen : bool) return M unit then mret tt
  else ws ← get watchers; for_of ws newVal oldVal.

(** [pause()] and [begin()] *)
Definition pause : M unit :=
  set_frozen true;;
  d ← get data;
  snapshot ← slice d;
  set_frozenValue snapshot.

Definition begin : M unit :=
  set_frozen false;;
  d ← get data;
  fv ← get _frozenValue;
  notify d fv.

(** [get value()] and [set value(newArray)] *)
Definition value : M loc :=
  d ← get data; slice d.

Definition set_value (newArray : loc) : M unit :=
  oldVal ← get data;
  copy ← slice newArray;
  set_data copy;;
  d ← get data;
  notify d oldVal.

(** [listener(fn)] and [stop(fn)] *)
Definition listener (fn : W) : M unit :=
  ws ← get watchers;
  set_watchers (if decide (fn ∈ ws) then ws else ws ++ [fn]).

Definition stop (fn : W) : M unit :=
  ws ← get watchers;
  set_watchers (filter (λ x, x ≠ fn) ws).

(** [push(...items)]: snapshot, [this.data.push(...items)], notify. *)
Definition push (items : list T) : M nat :=
  d ← get data;
  oldVal ← slice d;
  newLength ← array_push d items;
  notify d oldVal;;
  mret newLength.

(** [pop()]: [undefined] at once when [this.data.length === 0]. *)
Definition pop : M (option T) :=
  d ← get data;
  v ← load d;
  if decide (length v = 0%nat) return M (option T) then mret None
  else
    oldVal ← slice d;
    popped ← array_pop d;
    notify d oldVal;;
    mret popped.

(** [unshift(...items)] *)
Definition unshift (items : list T) : M nat :=
  d ← get data;
  oldVal ← slice d;
  newLength ← array_unshift d items;
  notify d oldVal;;
  mret newLength.

(** [shift()] *)
Definition shift : M (option T) :=
  d ← get data;
  v ← load d;
  if decide (length v = 0%nat) return M (option T) then mret None
  else
    oldVal ← slice d;
    shifted ← array_shift d;
    notify d oldVal;;
    mret shifted.

(** [splice(start, deleteCount?, ...items)] *)
Definition splice (start : Z) (deleteCount : option Z) (items : list T)
  : M (list T) :=
  d ← get data;
  oldVal ← slice d;
  removed ← array_splice d start (default 0 deleteCount) items;
  (if decide (0 < length removed ∨ 0 < length items)%nat return M unit
   then notify d oldVal else mret tt);;
  mret removed.

(** [removeByIndex(index)]: [const [removed] = this.data.splice(index, 1)]
    at a valid index. *)
Definition removeByIndex (index : Z) : M (option T) :=
  d ← get data;
  v ← load d;
  if decide (index < 0 ∨ index >= Z.of_nat (length v))
     return M (option T) then mret None
  else
    oldVal ← slice d;
    removed ← array_splice d index 1 [];
    notify d oldVal;;
    mret (head removed).

(** [indexOf(boolCallback)]: [-1] when nothing is found. *)
Definition indexOf (boolCallback : T → nat → list T → bool) : M Z :=
  d ← get data;
  v ← load d;
  mret (match find_from boolCallback v 0%nat v with
        | Some (i, _) => Z.of_nat i
        | None => -1
        end).

(** [filterBy(callback)]: [removed] is
    [oldVal.filter((item) => !newArr.includes(item))]. *)
Definition filterBy (callback : T → nat → list T → bool) : M (list T) :=
  d ← get data;
  oldVal ← slice d;
  newArr ← array_filter d callback;
  old ← load oldVal;
  kept ← load newArr;
  let removed := filter (λ item, ¬ includes kept item) old in
  (if decide (0 < length removed ∨ length kept ≠ length old)%nat
      return M unit
   then set_data newArr;; d' ← get data; notify d' oldVal
   else mret tt);;
  mret removed.

(** [orderBy(compareFn?)] returns [this].  [compareFn] is the comparator in
    effect: the one given, or the default order when it is left out. *)
Definition orderBy (compareFn : T → T → Z) : M JinjxSignalList :=
  d ← get data;
  oldVal ← slice d;
  array_sort d compareFn;;
  sorted ← load d;
  old ← load oldVal;
  (if negb (arraysShallowEqual sorted old) return M unit
   then notify d oldVal else mret tt);;
  get id.

(** [remove(callback)]: the filter callback pushes on [removedItems] the
    items for which [callback(item, index, oldVal)] holds and keeps the
    others. *)
Definition remove (callback : T → nat → list T → bool) : M (list T) :=
  d ← get data;
  oldVal ← slice d;
  old ← load oldVal;
  v ← load d;
  let removedItems :=
    filter_from (λ item index _, callback item index old) v 0%nat v in
  kept ← array_filter d (λ item index _, negb (callback item index old));
  set_data kept;;
  (if decide (0 < length removedItems)%nat return M unit
   then d' ← get data; notify d' oldVal else mret tt);;
  mret removedItems.

(** [find(callback)] *)
Definition find (callback : T → nat → list T → bool) : M (option T) :=
  d ← get data;
  v ← load d;
  mret (snd <$> find_from callback v 0%nat v).

(** *** Code outside the class *)

(** A holder of the array reference [l] overwrites the array in place
    (any of [l.push(..)], [l.length = 0], [l[i] = x], ...). *)
Definition external_write (l : loc) (v : list T) : M unit := store l v.

(** The sequence the collection holds. *)
Definition contents (σ : config) : list T := heap σ !!! data (this σ).

(** *** Vocabulary of the statements *)

(** One notification: every watcher of [ws] called once, in order, with
    the references [newVal] and [oldVal], which hold [nv] and [ov]. *)
Definition dispatch (ws : list W) (newVal oldVal : loc)
    (nv ov : list T) : list call :=
  (λ w, Call w newVal oldVal nv ov) <$> ws.

(** [a] may stay before [b] under the comparator. *)
Definition before (compareFn : T → T → Z) (a b : T) : Prop :=
  compareFn a b ≤ 0.

(** A consistent comparison function, as the language defines it for
    [Array.prototype.sort]: ranking equal ([compareFn(a, b) = 0]) is
    reflexive, symmetric and transitive, and ranking below
    ([compareFn(a, b) < 0]) and ranking above ([compareFn(a, b) > 0]) are
    transitive. *)
Definition consistent (compareFn : T → T → Z) : Prop :=
  (∀ a, compareFn a a = 0) ∧
  (∀ a b, compareFn a b = 0 → compareFn b a = 0) ∧
  (∀ a b c, compareFn a b = 0 → compareFn b c = 0 → compareFn a c = 0) ∧
  (∀ a b c, compareFn a b < 0 → compareFn b c < 0 → compareFn a c < 0) ∧
  (∀ a b c, compareFn a b > 0 → compareFn b c > 0 → compareFn a c > 0).

(** [l'] keeps the items that rank equal under the comparator in the
    order, and in the number, they have in [l]. *)
Definition stable (compareFn : T → T → Z) (l l' : list T) : Prop :=
  ∀ x, filter (λ y, compareFn x y = 0) l'
       = filter (λ y, compareFn x y = 0) l.

(** What the constructor establishes and every method keeps: the two
    array fields refer to two distinct arrays of the heap and the
    watchers are a set. *)
Definition wf (σ : config) : Prop :=
  data (this σ) ∈ dom (heap σ) ∧
  _frozenValue (this σ) ∈ dom (heap σ) ∧
  data (this σ) ≠ _frozenValue (this σ) ∧
  NoDup (watchers (this σ)).

(** The mutators, as calls. *)
Inductive mutator : Type :=
| Push (items : list T)
| Pop
| Unshift (items : list T)
| Shift
| Splice (start : Z) (deleteCount : option Z) (items : list T)
| RemoveByIndex (index : Z)
| FilterBy (callback : T → nat → list T → bool)
| OrderBy (compareFn : T → T → Z)
| Remove (callback : T → nat → list T → bool)
| SetValue (newArray : loc).

Definition run (m : mutator) : M unit :=
  match m with
  | Push items => push items;; mret tt
  | Pop => pop;; mret tt
  | Unshift items => unshift items;; mret tt
  | Shift => shift;; mret tt
  | Splice start deleteCount items =>
      splice start deleteCount items;; mret tt
  | RemoveByIndex index => removeByIndex index;; mret tt
  | FilterBy callback => filterBy callback;; mret tt
  | OrderBy compareFn => orderBy compareFn;; mret tt
  | Remove callback => remove callback;; mret tt
  | SetValue newArray => set_value newArray
  end.

Fixpoint run_all (ms : list mutator) : M unit :=
  match ms with
  | [] => mret tt
  | m :: rest => run m;; run_all rest
  end.

(** What a mutator makes of the sequence [v] on the heap [h]. *)
Definition mutate (m : mutator) (h : gmap loc (list T)) (v : list T)
  : list T :=
  match m with
  | Push items => v ++ items
  | Pop => removelast v
  | Unshift items => items ++ v
  | Shift => tail v
  | Splice start deleteCount items =>
      splice_list v start (default 0 deleteCount) items
  | RemoveByIndex index =>
      if decide (index < 0 ∨ index >= Z.of_nat (length v)) then v
      else delete (Z.to_nat index) v
  | FilterBy callback => filter_list callback v
  | OrderBy compareFn => sort_list compareFn v
  | Remove callback =>
      filter_list (λ item index _, negb (callback item index v)) v
  | SetValue newArray => h !!! newArray
  end.

(** The public calls on a collection. *)
Inductive operation : Type :=
| Mutate (m : mutator)
| Pause
| Begin
| GetValue
| Listener (fn : W)
| Stop (fn : W)
| IndexOf (boolCallback : T → nat → list T → bool)
| Find (callback : T → nat → list T → bool).

Definition perform (o : operation) : M unit :=
  match o with
  | Mutate m => run m
  | Pause => pause
  | Begin => begin
  | GetValue => value;; mret tt
  | Listener fn => listener fn
  | Stop fn => stop fn
  | IndexOf boolCallback => indexOf boolCallback;; mret tt
  | Find callback => find callback;; mret tt
  end.

Fixpoint perform_all (os : list operation) : M unit :=
  match os with
  | [] => mret tt
  | o :: rest => perform o;; perform_all rest
  end.

(** What an operation that takes [σ] to [σ'] leaves in place: the arrays
    that exist stay, the data and baseline fields keep their array or get a
    new one, no array but the data array is written, and every watcher
    called is registered and handed as old sequence an array other than the
    data array, which holds afterwards what it held at the call. *)
Definition framed (σ σ' : config) : Prop :=
  wf σ' ∧
  (∀ l, l ∈ dom (heap σ) → l ∈ dom (heap σ')) ∧
  (data (this σ') = data (this σ) ∨ data (this σ') ∉ dom (heap σ)) ∧
  (_frozenValue (this σ') = _frozenValue (this σ) ∨
   _frozenValue (this σ') ∉ dom (heap σ)) ∧
  (∀ l, l ∈ dom (heap σ) → l ≠ data (this σ) →
        heap σ' !!! l = heap σ !!! l) ∧
  ∃ calls,
    log σ' = log σ ++ calls ∧
    ∀ c, c ∈ calls →
         c_watcher c ∈ watchers (this σ) ∧
         c_old c ∈ dom (heap σ') ∧
         c_old c ≠ data (this σ') ∧
         heap σ' !!! c_old c = c_oldval c.

(** The calls made to the watcher [fn] in a log. *)
Definition calls_to (fn : W) (lg : list call) : list call :=
  filter (λ c, c_watcher c = fn) lg.

End SignalList.
Arguments JinjxSignalList : clear implicits.
Arguments call : clear implicits.
Arguments config : clear implicits.
Arguments mutator : clear implicits.
Arguments operation : clear implicits.

(** A collection of integers made from a caller's array that holds [xs],
    with one watcher, 7, registered. *)
Definition example (xs : list Z) : config Z nat :=
  (listener 7%nat (new (Some 1%positive) {[1%positive := xs]})).2.

(** The comparator [(a, b) => a - b]. *)
Definition ascending (a b : Z) : Z := a - b.

(** The callback [(item, index) => index === 0]. *)
Definition first_only (item : Z) (index : nat) (arr : list Z) : bool :=
  bool_decide (index = 0%nat).
End SignalList.

(* ===================================================================== *)
(** ** The factories: [signal], [signalList], [scope] and [state]         *)
(* ===================================================================== *)

Module Jinjx.
Section Jinjx.
Context {T W : Type} `{EqDecision T, EqDecision W}.

(** [signal(initialValue) { return new JinjxSignal(initialValue); }] *)
Definition signal (initialValue : T) : Signal.JinjxSignal T W :=
  Signal.new initialValue.

(** [signalList(initialValue) { return new JinjxSignalList(initialValue); }]
    on a heap [h]. *)
Definition signalList (initialValue : positive) (h : gmap positive (list T))
  : SignalList.config T W :=
  SignalList.new (Some initialValue) h.

(** [scope(el) { return new JinjxScope(el); }] *)
Definition scope {Host Action : Type} (el : Host)
  : Scope.JinjxScope Host Action :=
  Scope.new el.

(** [state(reaction, initialValue)]: the signal that the two closures it
    returns share, made by [new JinjxSignal(initialValue)] and
    [signal.listens(reaction)]. *)
Definition state (reaction : W) (initialValue : T) : Signal.JinjxSignal T W :=
  Signal.listens reaction (Signal.new initialValue).

(** [const get = () => signal.value] *)
Definition get (signal : Signal.JinjxSignal T W) : T := Signal.value signal.

(** [const set = (value) => signal.value = value] *)
Definition set (value : T) (signal : Signal.JinjxSignal T W)
  : Signal.JinjxSignal T W * list (Signal.call T W) :=
  Signal.set_value Signal.changed value signal.

(** [reaction: (oldVal, newVal) => void] is called as a watcher: its first
    parameter, [oldVal], is bound to the first argument of the call and
    its second, [newVal], to the second. *)
Definition reaction_oldVal (c : Signal.call T W) : T := Signal.c_new c.
Definition reaction_newVal (c : Signal.call T W) : T := Signal.c_old c.

End Jinjx.
End Jinjx.

(* ===================================================================== *)
(** ** Delegation: [JinjxScope.delegate] on [JinjxElement.event]          *)
(* ===================================================================== *)

Module Delegation.
Section Delegation.
Context {Target Selector Handler EventName UserAction : Type}
        `{EqDecision Selector, EqDecision Handler, EqDecision EventName}.

(** [target.matches(selector)] *)
Variable matches : Target → Selector → bool.

(** The function object [computedHandler] that one call of [delegate]
    makes, closed over [selector] and [eventHandler]; [closure] tells the
    objects of different calls apart. *)
Record callback : Type := Computed {
  closure : nat;
  selector : Selector;
  eventHandler : Handler
}.

#[global] Instance callback_eq_dec : EqDecision callback.
Proof. solve_decision. Defined.

(** The host element: the event listener list of its DOM node, and how
    many function objects [delegate] has made. *)
Record world : Type := World {
  el_listeners : list (EventName * callback);
  closures : nat
}.

(** [el.addEventListener(type, callback)] appends the listener unless the
    same type and callback are listed; [el.removeEventListener(type,
    callback)] takes it off the list. *)
Definition addEventListener (type : EventName) (cb : callback)
    (ls : list (EventName * callback)) : list (EventName * callback) :=
  if decide ((type, cb) ∈ ls) then ls else ls ++ [(type, cb)].

Definition removeEventListener (type : EventName) (cb : callback)
    (ls : list (EventName * callback)) : list (EventName * callback) :=
  filter (λ l, l ≠ (type, cb)) ls.

(** The cleanup functions a scope stores: the closure returned by
    [host.event], which removes the listener, or a function given to
    [effect]. *)
Inductive action : Type :=
| Detach (eventName : EventName) (cb : callback)
| User (effectFn : UserAction).

(** [JinjxElement.event(eventName, callback)]: adds the listener and
    returns the function that removes it. *)
Definition event (eventName : EventName) (cb : callback) (w : world)
  : action * world :=
  (Detach eventName cb,
   World (addEventListener eventName cb (el_listeners w)) (closures w)).

(** [delegate(eventName, selector, eventHandler)] *)
Definition delegate {Host : Type} (eventName : EventName)
    (sel : Selector) (handler : Handler)
    (s : Scope.JinjxScope Host action) (w : world)
  : Scope.JinjxScope Host action * world :=
  let computedHandler := Computed (closures w) sel handler in
  let w1 := World (el_listeners w) (S (closures w)) in
  (Scope.delegate (event eventName computedHandler w1).1 s,
   (event eventName computedHandler w1).2).

(** [effect(effectFn)] *)
Definition effect {Host : Type} (effectFn : UserAction)
    (s : Scope.JinjxScope Host action) (w : world)
  : Scope.JinjxScope Host action * world :=
  (Scope.effect (User effectFn) s, w).

(** A call of [computedHandler] with an event whose target is [target]:
    the call [eventHandler(e, new JinjxElement(target))] it makes, when
    [target && target.matches(selector)]. *)
Definition computedHandler (cb : callback) (target : option Target)
  : list (Handler * Target) :=
  match target with
  | Some t => if matches t (selector cb) then [(eventHandler cb, t)] else []
  | None => []
  end.

(** An event of type [eventName] with target [target] reaches the host:
    the listeners of that type run in order; the handler calls made. *)
Definition dispatch (eventName : EventName) (target : option Target)
    (w : world) : list (Handler * Target) :=
  flat_map (λ l, if decide (l.1 = eventName)
                 then computedHandler l.2 target else [])
           (el_listeners w).

(** What invoking a cleanup function does to the host, and whether it
    throws: removing a listener does not; a function given to [effect]
    leaves the listeners of the host as they are. *)
Definition run_action (a : action) (w : world) : world :=
  match a with
  | Detach eventName cb =>
      World (removeEventListener eventName cb (el_listeners w)) (closures w)
  | User _ => w
  end.

Definition throws_of (throws : UserAction → bool) (a : action) : bool :=
  match a with
  | Detach _ _ => false
  | User effectFn => throws effectFn
  end.

(** [dispose()] on the scope and its host. *)
Definition dispose {Host : Type} (throws : UserAction → bool)
    (s : Scope.JinjxScope Host action) (w : world)
  : Scope.JinjxScope Host action * list action * Scope.completion * world :=
  (Scope.dispose (throws_of throws) s,
   foldl (λ w' a, run_action a w') w
         (Scope.dispose (throws_of throws) s).1.2).

(** Registrations on a scope, as calls. *)
Inductive registration : Type :=
| Delegate (eventName : EventName) (sel : Selector) (handler : Handler)
| Effect (effectFn : UserAction).

Definition register {Host : Type} (r : registration)
    (s : Scope.JinjxScope Host action) (w : world)
  : Scope.JinjxScope Host action * world :=
  match r with
  | Delegate eventName sel handler => delegate eventName sel handler s w
  | Effect effectFn => effect effectFn s w
  end.

Fixpoint register_all {Host : Type} (rs : list registration)
    (s : Scope.JinjxScope Host action) (w : world)
  : Scope.JinjxScope Host action * world :=
  match rs with
  | [] => (s, w)
  | r :: rest =>
      register_all rest (register r s w).1 (register r s w).2
  end.

(** The listeners that the cleanup functions [acts] remove. *)
Fixpoint entries (acts : list action) : list (EventName * callback) :=
  match acts with
  | [] => []
  | Detach eventName cb :: rest => (eventName, cb) :: entries rest
  | User _ :: rest => entries rest
  end.

(** No function given to [effect] in [rs] throws. *)
Definition quiet (throws : UserAction → bool) (rs : list registration)
  : Prop :=
  ∀ effectFn, Effect effectFn ∈ rs → throws effectFn = false.

(** Every function object on the listener list was made before. *)
Definition known (w : world) : Prop :=
  ∀ l, l ∈ el_listeners w → (closure l.2 < closures w)%nat.

(** What a run of registrations on a scope keeps, from a host that had the
    listeners [L0] when [k0] function objects had been made: the listeners
    are [L0] followed by those the stored cleanup functions remove, and the
    latter were made since. *)
Definition registered {Host : Type} (L0 : list (EventName * callback))
    (k0 : nat) (s : Scope.JinjxScope Host action) (w : world) : Prop :=
  el_listeners w = L0 ++ entries (Scope._effectStore s) ∧
  (∀ l, l ∈ L0 → (closure l.2 < k0)%nat) ∧
  (k0 ≤ closures w)%nat ∧
  (∀ l, l ∈ entries (Scope._effectStore s) →
        (k0 ≤ closure l.2 < closures w)%nat).

End Delegation.
Arguments callback : clear implicits.
Arguments world : clear implicits.
Arguments action : clear implicits.
Arguments registration : clear implicits.
End Delegation.

(* ===================================================================== *)
(** ** The earlier signal class, with [listener], [stop] and an inline
       comparison                                                         *)
(* ===================================================================== *)

Module WatcherSignal.
Section WatcherSignal.
Context {T W : Type} `{EqDecision T, EqDecision W}.

(** [class JinjxSignal<T>]: the private [_value] and
    [watchers: Set<Watcher<T>>]. *)
Record JinjxSignal : Type := mkSignal {
  _value : T;
  watchers : list W
}.

(** [constructor(initialValue)] *)
Definition new (initialValue : T) : JinjxSignal :=
  mkSignal initialValue [].

(** [get value()] *)
Definition value (s : JinjxSignal) : T := _value s.

(** [listener(watcher)] and [stop(watcher)] *)
Definition listener (watcher : W) (s : JinjxSignal) : JinjxSignal :=
  mkSignal (_value s) (Signal.set_add watcher (watchers s)).

Definition stop (watcher : W) (s : JinjxSignal) : JinjxSignal :=
  mkSignal (_value s) (Signal.set_delete watcher (watchers s)).

(** [notify(newVal, oldVal)], run on the object [s]. *)
Fixpoint for_of (ws : list W) (s : JinjxSignal) (newVal oldVal : T)
  : list (Signal.call T W) :=
  match ws with
  | [] => []
  | watcher :: rest =>
      Signal.Call watcher newVal oldVal (value s)
      :: for_of rest s newVal oldVal
  end.

Definition notify (s : JinjxSignal) (newVal oldVal : T)
  : list (Signal.call T W) :=
  for_of (watchers s) s newVal oldVal.

(** [set value(newVal) { if (newVal !== this._value) { ... } }] *)
Definition set_value (newVal : T) (s : JinjxSignal)
  : JinjxSignal * list (Signal.call T W) :=
  if decide (newVal ≠ _value s) then
    let oldVal := _value s in
    let s' := mkSignal newVal (watchers s) in
    (s', notify s' newVal oldVal)
  else (s, []).

(** The calls of [Signal.operation] on this class: [listener] for
    [listens], [stop] for [off]. *)
Definition perform (o : Signal.operation T W) (s : JinjxSignal)
  : JinjxSignal * list (Signal.call T W) :=
  match o with
  | Signal.Listens watcher => (listener watcher s, [])
  | Signal.Off watcher => (stop watcher s, [])
  | Signal.SetValue newVal => set_value newVal s
  end.

Fixpoint perform_all (os : list (Signal.operation T W)) (s : JinjxSignal)
  : JinjxSignal * list (Signal.call T W) :=
  match os with
  | [] => (s, [])
  | o :: rest =>
      ((perform_all rest (perform o s).1).1,
       (perform o s).2 ++ (perform_all rest (perform o s).1).2)
  end.

End WatcherSignal.
Arguments JinjxSignal : clear implicits.
End WatcherSignal.

(* ===================================================================== *)
(** ** [propState]: an attribute watched through a MutationObserver       *)
(* ===================================================================== *)

Module PropState.
Section PropState.
Context {W : Type} `{EqDecision W}.

(** [MutationRecord]: its [type] and [attributeName]. *)
Inductive mutation_type : Type := attributes | characterData | childList.

#[global] Instance mutation_type_eq_dec : EqDecision mutation_type.
Proof. solve_decision. Defined.

Record MutationRecord : Type := Mutation {
  type : mutation_type;
  attributeName : option string
}.

(** The attributes of the element. *)
Definition element : Type := gmap string string.

(** [x || ""] for [x : string | null]; the empty string, the only string
    that is falsy, is its own result. *)
Definition or_empty (x : option string) : string := default "" x.

(** [el.attr(attribute)]: [this.el.getAttribute(attribute) || ""]. *)
Definition attr (attribute : string) (el : element) : string :=
  or_empty (el !! attribute).

(** One invocation [changeCb(newValue, oldValue)]. *)
Record call : Type := Call {
  c_changeCb : W;
  c_newValue : string;
  c_oldValue : string
}.

(** What the closures [onChange] and [off] share, and the platform's
    observers: [mutator] is the observer held, by its identity; [value]
    the variable [value]; [observing] the observers that observe the
    element, each with the [changeCb] its callback closes over; [made]
    how many observers were constructed. *)
Record state : Type := State {
  mutator : option nat;
  value : string;
  observing : list (nat * W);
  made : nat
}.

(** [propState(propName, el)]: [mutator = null] and
    [value = el.attr(propName) || ""]. *)
Definition propState (propName : string) (el : element) : state :=
  State None (or_empty (Some (attr propName el))) [] 0.

(** [observer.disconnect()] *)
Definition disconnect (m : nat) (obs : list (nat * W)) : list (nat * W) :=
  filter (λ o, o.1 ≠ m) obs.

(** [if (mutator) { mutator.disconnect(); mutator = null; }] *)
Definition release (σ : state) : state :=
  match mutator σ with
  | Some m => State None (value σ) (disconnect m (observing σ)) (made σ)
  | None => σ
  end.

(** [onChange(changeCb)]: releases the observer held, constructs a new
    one and makes it observe the element. *)
Definition onChange (changeCb : W) (σ : state) : state :=
  State (Some (made (release σ))) (value (release σ))
        (observing (release σ) ++ [(made (release σ), changeCb)])
        (S (made (release σ))).

(** [off()] *)
Definition off (σ : state) : state := release σ.

(** The callback of the observer, on the records [mutations] while the
    element is [el]: the loop [for (const mutation of mutations)], from
    the variable [value]; the variable afterwards and the calls made. *)
Fixpoint for_of (propName : string) (changeCb : W) (el : element)
    (mutations : list MutationRecord) (value : string) : string * list call :=
  match mutations with
  | [] => (value, [])
  | mutation :: rest =>
      if decide (type mutation ≠ attributes
                 ∨ attributeName mutation ≠ Some propName)
      then for_of propName changeCb el rest value
      else
        let newValue := or_empty (Some (attr propName el)) in
        let oldValue := value in
        ((for_of propName changeCb el rest newValue).1,
         Call changeCb newValue oldValue
         :: (for_of propName changeCb el rest newValue).2)
  end.

(** The platform hands the records [mutations] to the observer [m] while
    the element is [el]; an observer that does not observe gets none. *)
Definition deliver (propName : string) (m : nat)
    (mutations : list MutationRecord) (el : element) (σ : state)
  : state * list call :=
  match list_find (λ o, o.1 = m) (observing σ) with
  | Some (_, (_, changeCb)) =>
      (State (mutator σ)
             (for_of propName changeCb el mutations (value σ)).1
             (observing σ) (made σ),
       (for_of propName changeCb el mutations (value σ)).2)
  | None => (σ, [])
  end.

(** What happens to the pair of closures, as events. *)
Inductive event : Type :=
| OnChange (changeCb : W)
| Off
| Deliver (m : nat) (mutations : list MutationRecord) (el : element).

Definition step (propName : string) (e : event) (σ : state)
  : state * list call :=
  match e with
  | OnChange changeCb => (onChange changeCb σ, [])
  | Off => (off σ, [])
  | Deliver m mutations el => deliver propName m mutations el σ
  end.

Fixpoint steps (propName : string) (es : list event) (σ : state)
  : state * list call :=
  match es with
  | [] => (σ, [])
  | e :: rest =>
      ((steps propName rest (step propName e σ).1).1,
       (step propName e σ).2 ++ (steps propName rest (step propName e σ).1).2)
  end.

(** The [changeCb] in force after the events [es], when [cur] was in
    force before: that of the last [onChange], unless [off] came later. *)
Fixpoint in_force (cur : option W) (es : list event) : option W :=
  match es with
  | [] => cur
  | OnChange changeCb :: rest => in_force (Some changeCb) rest
  | Off :: rest => in_force None rest
  | Deliver _ _ _ :: rest => in_force cur rest
  end.

(** The record is one that the callback acts on. *)
Definition relevant (propName : string) (mutation : MutationRecord) : Prop :=
  type mutation = attributes ∧ attributeName mutation = Some propName.

#[global] Instance relevant_dec propName mutation :
  Decision (relevant propName mutation).
Proof. unfold relevant. apply _. Defined.

End PropState.
Arguments call : clear implicits.
Arguments state : clear implicits.
Arguments event : clear implicits.
End PropState.

(* ===================================================================== *)
(** ** Signal: change-gated notification                                  *)
(* ===================================================================== *)

Section SignalFacts.
Import Signal.
Context {T W : Type} `{EqDecision T, EqDecision W}.
Implicit Types (s : JinjxSignal T W) (w : W) (v : T).

Lemma changed_false v old : changed v old = false ↔ v = old.
Proof.
  unfold changed. rewrite bool_decide_eq_false. split.
  - intros Hnn. destruct (decide (v = old)); [done | contradiction].
  - intros -> Hne. by apply Hne.
Qed.

Lemma set_add_NoDup w (l : list W) : NoDup l → NoDup (set_add w l).
Proof.
  intros Hl. unfold set_add. case_decide; [done |].
  apply NoDup_app. split_and!; [done | | apply NoDup_singleton].
  intros x Hx ->%list_elem_of_singleton. contradiction.
Qed.

Lemma set_delete_NoDup w (l : list W) : NoDup l → NoDup (set_delete w l).
Proof. apply NoDup_filter. Qed.

(** Registration keeps the listeners a set and is idempotent. *)
Lemma listens_NoDup w s : NoDup (listeners s) → NoDup (listeners (listens w s)).
Proof. apply set_add_NoDup. Qed.

Lemma off_NoDup w s : NoDup (listeners s) → NoDup (listeners (off w s)).
Proof. apply set_delete_NoDup. Qed.

Lemma listens_twice w s : listens w (listens w s) = listens w s.
Proof.
  unfold listens, set_add; simpl. f_equal.
  destruct (decide (w ∈ listeners s)) as [Hin | Hnin].
  - by rewrite decide_True.
  - rewrite decide_True; [done |]. apply elem_of_app. right.
    by apply list_elem_of_singleton.
Qed.

Lemma for_of_calls (ws : list W) s n o :
  for_of ws s n o = (λ w, Call w n o (value s)) <$> ws.
Proof. induction ws as [| w ws IH]; simpl; [done | by rewrite IH]. Qed.

Lemma invocations_fmap (f : W → call T W) (ws : list W) w :
  (∀ x, c_watcher (f x) = x) →
  invocations w (f <$> ws) = length (filter (λ x, x = w) ws).
Proof.
  intros Hf. unfold invocations. induction ws as [| x ws IH]; [done |].
  rewrite fmap_cons, !filter_cons, Hf.
  destruct (decide (x = w)); simpl; by rewrite IH.
Qed.

Lemma count_not_elem (ws : list W) w :
  w ∉ ws → length (filter (λ x, x = w) ws) = 0%nat.
Proof.
  induction ws as [| x ws IH]; [done |].
  intros [Hne Hnin]%not_elem_of_cons. rewrite filter_cons.
  destruct (decide (x = w)) as [-> | _]; [done | by apply IH].
Qed.

Lemma count_NoDup (ws : list W) w :
  NoDup ws → w ∈ ws → length (filter (λ x, x = w) ws) = 1%nat.
Proof.
  induction 1 as [| x ws Hx Hnd IH]; [by intros ?%not_elem_of_nil |].
  intros Hin. rewrite filter_cons. destruct (decide (x = w)) as [-> | Hne].
  - simpl. f_equal. by apply count_not_elem.
  - apply IH. apply elem_of_cons in Hin as [-> | ?]; done.
Qed.

(** C1.  A write [s.value = v] under the change predicate [chg] (any
    override, the default [changed] included).  When [chg v s.value] is
    false the call is a no-op: the object is returned as it was and no
    watcher is called.  Otherwise the object holds [v] with the same
    listeners, every call made is [watcher(v, oldValue)] to a registered
    watcher that reads back [v], every registered watcher is called
    exactly once and nobody else is called. *)
Theorem signal_set_value_gated (chg : T → T → bool) s v :
  NoDup (listeners s) →
  (chg v (_value s) = false → set_value chg v s = (s, [])) ∧
  (chg v (_value s) = true →
     _value (set_value chg v s).1 = v ∧
     listeners (set_value chg v s).1 = listeners s ∧
     (∀ c, c ∈ (set_value chg v s).2 →
           c_new c = v ∧ c_old c = _value s ∧ c_seen c = v) ∧
     (∀ w, w ∈ listeners s →
           invocations w (set_value chg v s).2 = 1%nat) ∧
     (∀ w, w ∉ listeners s →
           invocations w (set_value chg v s).2 = 0%nat)).
Proof.
  intros Hnd. unfold set_value. split; intros ->; simpl; [done |].
  unfold notify; simpl. rewrite for_of_calls.
  split_and!; [done | done | | |].
  - intros c (w & -> & _)%list_elem_of_fmap. done.
  - intros w Hw. rewrite invocations_fmap by done. by apply count_NoDup.
  - intros w Hw. rewrite invocations_fmap by done. by apply count_not_elem.
Qed.

(** The default predicate reports a change exactly for [v !== s.value]. *)
Lemma signal_default_write s v :
  set_value changed v s =
    if decide (v = _value s) then (s, [])
    else (mkSignal v (listeners s),
          (λ w, Call w v (_value s) v) <$> listeners s).
Proof.
  unfold set_value. case_decide as Heq.
  - apply changed_false in Heq. by rewrite Heq.
  - destruct (changed v (_value s)) eqn:Hc; simpl.
    + unfold notify. by rewrite for_of_calls.
    + by apply changed_false in Hc.
Qed.
End SignalFacts.

(** A signal holding 1 with watchers 10 and 20, written 1 and then 2. *)
Lemma signal_set_value_gated_witness :
  NoDup [10%nat; 20%nat] ∧
  Signal.set_value Signal.changed 1 (Signal.mkSignal 1 [10%nat; 20%nat])
    = (Signal.mkSignal 1 [10%nat; 20%nat], []) ∧
  Signal.invocations 10%nat
    (Signal.set_value Signal.changed 2
       (Signal.mkSignal 1 [10%nat; 20%nat])).2 = 1%nat.
Proof.
  assert (Hnd : NoDup [10%nat; 20%nat]) by compute_done.
  destruct (signal_set_value_gated Signal.changed
              (Signal.mkSignal 1 [10%nat; 20%nat]) 1 Hnd) as [Hsame _].
  destruct (signal_set_value_gated Signal.changed
              (Signal.mkSignal 1 [10%nat; 20%nat]) 2 Hnd) as [_ Hnew].
  split_and!; [exact Hnd | by apply Hsame |].
  apply Hnew; [reflexivity | compute_done].
Defined.

(* ===================================================================== *)
(** ** Scope: disposal                                                    *)
(* ===================================================================== *)

Section ScopeFacts.
Import Scope.
Context {Host Action : Type}.
Implicit Types (s : JinjxScope Host Action) (throws : Action → bool).

Lemma for_of_returns throws (store : list Action) :
  Forall (λ a, throws a = false) store →
  for_of throws store = (store, Returned).
Proof.
  induction 1 as [| a store Ha _ IH]; simpl; [done |].
  by rewrite Ha, IH.
Qed.

Lemma for_of_app throws (pre rest : list Action) :
  Forall (λ a, throws a = false) pre →
  for_of throws (pre ++ rest) =
    (pre ++ (for_of throws rest).1, (for_of throws rest).2).
Proof.
  induction 1 as [| a pre Ha _ IH]; simpl.
  - by destruct (for_of throws rest).
  - by rewrite Ha, IH.
Qed.

(** The loop only ever invokes a prefix of the store, in order. *)
Lemma for_of_prefix throws (store : list Action) :
  (for_of throws store).1 `prefix_of` store.
Proof.
  induction store as [| a store IH]; simpl; [done |].
  destruct (throws a); simpl.
  - by apply prefix_cons, prefix_nil.
  - destruct (for_of throws store) as [invoked c]; simpl in *.
    by apply prefix_cons.
Qed.

(** C5, amended.  When no registered cleanup action throws, [dispose()]
    returns after invoking every registered action exactly once, in
    registration order, and leaves the action list empty; a second
    [dispose()] then invokes nothing, whatever the actions would do. *)
Theorem scope_dispose_once throws s :
  Forall (λ a, throws a = false) (_effectStore s) →
  dispose throws s = (mkScope (host s) [], _effectStore s, Returned) ∧
  ∀ throws', dispose throws' (dispose throws s).1.1
             = (mkScope (host s) [], [], Returned).
Proof.
  intros Hok.
  assert (Hd : dispose throws s
               = (mkScope (host s) [], _effectStore s, Returned)).
  { unfold dispose. by rewrite (for_of_returns _ _ Hok). }
  rewrite Hd. split; [done |]. intros throws'. reflexivity.
Qed.

(** C10.  When the k-th registered action [a] is the first to throw,
    [dispose()] ends by that exception having invoked the first k actions
    and none after, and the scope is as before: the action list is not
    cleared.  A later [dispose()] on it therefore runs the first k-1
    actions and [a] again (as long as the first k-1 still return). *)
Theorem scope_dispose_throw throws s (pre post : list Action) (a : Action) :
  _effectStore s = pre ++ a :: post →
  Forall (λ x, throws x = false) pre →
  throws a = true →
  dispose throws s = (s, pre ++ [a], Thrown) ∧
  (dispose throws (dispose throws s).1.1).1.2 = pre ++ [a] ∧
  ∀ throws', Forall (λ x, throws' x = false) pre →
             ∃ rest, (dispose throws' (dispose throws s).1.1).1.2
                     = pre ++ a :: rest.
Proof.
  intros Hstore Hpre Ha.
  assert (Hd : dispose throws s = (s, pre ++ [a], Thrown)).
  { unfold dispose. rewrite Hstore, (for_of_app _ _ _ Hpre). simpl.
    by rewrite Ha. }
  rewrite Hd; simpl. split_and!; [done | by rewrite Hd |].
  intros throws' Hpre'. unfold dispose.
  rewrite Hstore, (for_of_app _ _ _ Hpre'). simpl.
  destruct (throws' a); simpl; [by exists [] |].
  destruct (for_of throws' post) as [invoked [|]]; simpl; by exists invoked.
Qed.
End ScopeFacts.

(** Three actions 0, 1, 2 registered in this order; none throws. *)
Lemma scope_dispose_once_witness :
  Scope.dispose (λ _ : nat, false)
    (Scope.effect 2%nat (Scope.effect 1%nat (Scope.effect 0%nat (Scope.new tt))))
  = (Scope.new tt, [0%nat; 1%nat; 2%nat], Scope.Returned).
Proof.
  apply (scope_dispose_once (λ _ : nat, false)
           (Scope.effect 2%nat
              (Scope.effect 1%nat (Scope.effect 0%nat (Scope.new tt))))).
  simpl. repeat constructor.
Defined.

(** C5 as stated fails when an action throws: with 0, 1, 2 registered and
    1 throwing, [dispose()] invokes 0 and 1 only, leaves the list as it was,
    and the second [dispose()] invokes 0 and 1 again. *)
Lemma scope_dispose_once_counterexample :
  let throws := λ a : nat, bool_decide (a = 1%nat) in
  let s := Scope.effect 2%nat
             (Scope.effect 1%nat (Scope.effect 0%nat (Scope.new tt))) in
  (Scope.dispose throws s).1.2 = [0%nat; 1%nat] ∧
  (Scope.dispose throws s).1.2 ≠ Scope._effectStore s ∧
  Scope._effectStore (Scope.dispose throws s).1.1 ≠ [] ∧
  (Scope.dispose throws (Scope.dispose throws s).1.1).1.2 ≠ [].
Proof. vm_compute. split_and!; [reflexivity | discriminate ..]. Qed.

(** The same scope, seen as an instance of C10 with k = 2. *)
Lemma scope_dispose_throw_witness :
  let throws := λ a : nat, bool_decide (a = 1%nat) in
  Scope.dispose throws (Scope.mkScope tt [0%nat; 1%nat; 2%nat])
  = (Scope.mkScope tt [0%nat; 1%nat; 2%nat], [0%nat; 1%nat], Scope.Thrown).
Proof.
  apply (scope_dispose_throw (λ a : nat, bool_decide (a = 1%nat))
           (Scope.mkScope tt [0%nat; 1%nat; 2%nat]) [0%nat] [2%nat] 1%nat).
  - reflexivity.
  - repeat constructor.
  - reflexivity.
Defined.

(* ===================================================================== *)
(** ** SignalList: the array methods                                      *)
(* ===================================================================== *)

Section ArrayFacts.
Import SignalList.
Context {T : Type} `{EqDecision T}.
Implicit Types (v arr : list T) (cb : T → nat → list T → bool).

(** [arraysShallowEqual] decides equality of the two sequences. *)
Lemma shallow_loop_true (arr1 arr2 : list T) (i n : nat) :
  shallow_loop arr1 arr2 i n = true ↔
  ∀ j, (i ≤ j < i + n)%nat → arr1 !! j = arr2 !! j.
Proof.
  revert i. induction n as [| n IH]; intros i; simpl.
  - split; [intros _ j ?; lia | done].
  - case_bool_decide as Hi.
    + split; [done |]. intros Hall. destruct Hi. apply Hall. lia.
    + rewrite IH. split.
      * intros Hall j Hj. destruct (decide (j = i)) as [-> | ?]; [done |].
        apply Hall. lia.
      * intros Hall j Hj. apply Hall. lia.
Qed.

Lemma arraysShallowEqual_true (arr1 arr2 : list T) :
  arraysShallowEqual arr1 arr2 = true ↔ arr1 = arr2.
Proof.
  unfold arraysShallowEqual. case_bool_decide as Hlen.
  - split; [done |]. intros ->. by destruct Hlen.
  - rewrite shallow_loop_true. split.
    + intros Hall. apply list_eq. intros j.
      destruct (decide (j < length arr1)%nat) as [Hj | Hj].
      * apply Hall. lia.
      * rewrite !lookup_ge_None_2; [done | lia | lia].
    + by intros -> j _.
Qed.




Lemma sort_list_sorted_id (cmp : T → T → Z) v :
  Sorted (before cmp) v → sort_list cmp v = v.
Proof.
  induction 1 as [| x v _ IH Hhd]; simpl; [done |].
  rewrite IH. destruct Hhd as [| y v Hxy]; simpl; [done |].
  by rewrite decide_True.
Qed.

Lemma insert_sorted_Sorted (cmp : T → T → Z) x v :
  (∀ a b, before cmp a b ∨ before cmp b a) →
  Sorted (before cmp) v →
  Sorted (before cmp) (insert_sorted cmp x v).
Proof.
  intros Htot. induction 1 as [| y v Hs IH Hhd]; simpl.
  - by repeat constructor.
  - case_decide as Hxy.
    + by repeat constructor.
    + constructor; [done |].
      destruct Hhd as [| z v Hyz]; simpl.
      * constructor. destruct (Htot x y); [done | done].
      * case_decide; constructor; [| done].
        destruct (Htot x y); [done | done].
Qed.

Lemma sort_list_Sorted (cmp : T → T → Z) v :
  (∀ a b, before cmp a b ∨ before cmp b a) →
  Sorted (before cmp) (sort_list cmp v).
Proof.
  intros Htot. induction v as [| x v IH]; simpl; [constructor |].
  by apply insert_sorted_Sorted.
Qed.

(** [filter] keeps a subsequence; when it keeps the length it keeps all. *)
Lemma filter_from_length cb arr i v :
  (length (filter_from cb arr i v) ≤ length v)%nat.
Proof.
  revert i. induction v as [| x v IH]; intros i; simpl; [done |].
  destruct (cb x i arr); simpl; [specialize (IH (S i)); lia |].
  specialize (IH (S i)); lia.
Qed.

Lemma filter_from_all cb arr i v :
  length (filter_from cb arr i v) = length v → filter_from cb arr i v = v.
Proof.
  revert i. induction v as [| x v IH]; intros i; simpl; [done |].
  destruct (cb x i arr); simpl.
  - intros Hlen. f_equal. apply IH. lia.
  - intros Hlen. pose proof (filter_from_length cb arr (S i) v). lia.
Qed.

(** What [filter] keeps: the items on which the callback holds, at their
    index in the array. *)
Lemma filter_from_lookup cb arr i v x :
  x ∈ filter_from cb arr i v ↔
  ∃ j, v !! j = Some x ∧ cb x (i + j)%nat arr = true.
Proof.
  revert i. induction v as [| y v IH]; intros i; simpl.
  - split; [by intros ?%elem_of_nil | by intros (j & ? & _)].
  - destruct (cb y i arr) eqn:Hy.
    + rewrite elem_of_cons, IH. split.
      * intros [-> | (j & Hj & Hcb)].
        -- exists 0%nat. by rewrite Nat.add_0_r.
        -- exists (S j). by rewrite Nat.add_succ_r.
      * intros ([| j] & Hj & Hcb); simpl in *.
        -- left. congruence.
        -- right. exists j. by rewrite Nat.add_succ_r in Hcb.
    + rewrite IH. split.
      * intros (j & Hj & Hcb). exists (S j). by rewrite Nat.add_succ_r.
      * intros ([| j] & Hj & Hcb); simpl in *.
        -- rewrite Nat.add_0_r in Hcb. congruence.
        -- exists j. by rewrite Nat.add_succ_r in Hcb.
Qed.

(** [splice(index, 1)] at a valid index deletes the element there. *)
Lemma splice_one v (index : Z) :
  0 ≤ index < Z.of_nat (length v) →
  splice_list v index 1 [] = delete (Z.to_nat index) v ∧
  head (splice_removed v index 1) = v !! Z.to_nat index.
Proof.
  intros Hi. unfold splice_list, splice_removed, actual_delete_count,
    actual_start.
  rewrite decide_False by lia.
  replace (Z.to_nat (Z.min index (Z.of_nat (length v)))) with (Z.to_nat index)
    by lia.
  replace (Z.to_nat ((1 `max` 0) `min` _)) with 1%nat by lia.
  split.
  - simpl. by rewrite delete_take_drop, Nat.add_1_r.
  - destruct (drop (Z.to_nat index) v) as [| x rest] eqn:Hdrop.
    + apply (f_equal length) in Hdrop. rewrite length_drop in Hdrop.
      simpl in Hdrop. lia.
    + simpl. symmetry.
      rewrite <- (Nat.add_0_r (Z.to_nat index)), <- lookup_drop.
      by rewrite Hdrop.
Qed.
End ArrayFacts.

(* ===================================================================== *)
(** ** SignalList: what [sort] leaves under a consistent comparator       *)
(* ===================================================================== *)

Section Sorting.
Import SignalList.
Context {T : Type} `{EqDecision T}.
Implicit Types (v l : list T) (cmp : T → T → Z).

(** What a consistent comparison function gives: ranking above one way is
    ranking below the other way, every pair is ordered, and the order is
    transitive. *)
Lemma consistent_flip cmp a b :
  consistent cmp → cmp a b > 0 → cmp b a < 0.
Proof.
  intros (Hrefl & Hsym & _ & _ & Hgt) Hab.
  destruct (Z.lt_trichotomy (cmp b a) 0) as [Hlt | [Heq | Hba]]; [done | |].
  - apply Hsym in Heq. lia.
  - pose proof (Hgt a b a Hab ltac:(lia)). pose proof (Hrefl a). lia.
Qed.

Lemma consistent_total cmp a b :
  consistent cmp → before cmp a b ∨ before cmp b a.
Proof.
  intros Hc. unfold before.
  destruct (Z.lt_trichotomy (cmp a b) 0) as [Hlt | [Heq | Hgt]];
    [left; lia | left; lia |].
  right. pose proof (consistent_flip cmp a b Hc ltac:(lia)). lia.
Qed.

Lemma consistent_flip_lt cmp a b :
  consistent cmp → cmp a b < 0 → cmp b a > 0.
Proof.
  intros Hc Hab. pose proof Hc as (Hrefl & Hsym & _ & Hlt & _).
  destruct (Z.lt_trichotomy (cmp b a) 0) as [Hba | [Heq | Hgt]]; [| | lia].
  - pose proof (Hlt a b a Hab Hba). pose proof (Hrefl a). lia.
  - apply Hsym in Heq. lia.
Qed.

Lemma before_both cmp a b :
  consistent cmp → before cmp a b → before cmp b a → cmp a b = 0.
Proof.
  unfold before. intros Hc Hab Hba.
  destruct (Z.lt_trichotomy (cmp a b) 0) as [Hlt | [Heq | Hgt]];
    [| done | lia].
  pose proof (consistent_flip_lt cmp a b Hc Hlt). lia.
Qed.

Lemma before_trans cmp a b c :
  consistent cmp → before cmp a b → before cmp b c → before cmp a c.
Proof.
  unfold before. intros Hc Hab Hbc.
  pose proof Hc as (Hrefl & Hsym & Heq & Hlt & Hgt).
  destruct (Z.lt_trichotomy (cmp a c) 0) as [? | [? | Hac]]; [lia | lia |].
  (* a ranks above c *)
  pose proof (consistent_flip cmp a c Hc ltac:(lia)) as Hca.
  destruct (Z.lt_trichotomy (cmp a b) 0) as [Hab' | [Hab' | ?]]; [| | lia].
  - (* c < a < b, so c < b; but b ≤ c *)
    pose proof (Hlt c a b Hca Hab') as Hcb.
    pose proof (consistent_flip_lt cmp c b Hc Hcb). lia.
  - (* a = b *)
    destruct (Z.lt_trichotomy (cmp b c) 0) as [Hbc' | [Hbc' | ?]]; [| | lia].
    + (* b < c < a, so b < a; but a = b *)
      pose proof (Hlt b c a Hbc' Hca) as Hba.
      apply Hsym in Hab'. lia.
    + pose proof (Heq a b c Hab' Hbc'). lia.
Qed.

Lemma stable_refl cmp l : stable cmp l l.
Proof. by intros x. Qed.

Lemma insert_sorted_stable cmp a l :
  consistent cmp → stable cmp (a :: l) (insert_sorted cmp a l).
Proof.
  intros Hc x. pose proof Hc as (Hrefl & Hsym & Heq & _ & _).
  induction l as [| y l IH]; simpl; [done |].
  destruct (decide (cmp a y ≤ 0)) as [Hle | Hgt]; [done |].
  rewrite filter_cons, IH, !filter_cons.
  destruct (decide (cmp x y = 0)) as [Hxy | Hxy]; [| done].
  destruct (decide (cmp x a = 0)) as [Hxa | Hxa]; [| done].
  pose proof (Heq a x y (Hsym _ _ Hxa) Hxy). lia.
Qed.

Lemma sort_list_stable cmp l :
  consistent cmp → stable cmp l (sort_list cmp l).
Proof.
  intros Hc x. induction l as [| a l IH]; simpl; [done |].
  rewrite (insert_sorted_stable cmp a (sort_list cmp l) Hc x).
  by rewrite !filter_cons, IH.
Qed.

Lemma stable_elem cmp l l' a :
  consistent cmp → stable cmp l l' → a ∈ l → a ∈ l'.
Proof.
  intros (Hrefl & _) Hst Ha.
  assert (Hin : a ∈ filter (λ y, cmp a y = 0) l).
  { apply list_elem_of_filter. split; [apply Hrefl | done]. }
  rewrite <- (Hst a) in Hin. by apply list_elem_of_filter in Hin as [_ ?].
Qed.

Lemma Sorted_head_least cmp a l :
  consistent cmp → Sorted (before cmp) (a :: l) →
  ∀ b, b ∈ a :: l → before cmp a b.
Proof.
  intros Hc Hs b Hb.
  assert (Htr : Transitive (before cmp)).
  { intros x y z. by apply before_trans. }
  apply Sorted_StronglySorted in Hs; [| done].
  apply StronglySorted_inv in Hs as [_ Hall].
  apply elem_of_cons in Hb as [-> | Hb].
  - unfold before. destruct Hc as (Hrefl & _). rewrite Hrefl. lia.
  - by apply (proj1 (Forall_forall _ _) Hall).
Qed.

(** Two sorted sequences that hold the same items of every rank in the
    same order are the same sequence. *)
Lemma sorted_stable_unique cmp l1 l2 :
  consistent cmp →
  Sorted (before cmp) l1 → Sorted (before cmp) l2 →
  stable cmp l1 l2 → l1 = l2.
Proof.
  intros Hc. pose proof Hc as (Hrefl & Hsym & Heq & _ & _).
  revert l2. induction l1 as [| a l1 IH]; intros l2 Hs1 Hs2 Hst.
  - destruct l2 as [| b l2]; [done |].
    specialize (Hst b). rewrite filter_cons, decide_True in Hst by apply Hrefl.
    done.
  - destruct l2 as [| b l2].
    + specialize (Hst a).
      rewrite filter_cons, decide_True in Hst by apply Hrefl. done.
    + assert (Hab : cmp a b = 0).
      { apply before_both; [done | |].
        - apply (Sorted_head_least cmp a l1 Hc Hs1).
          apply (stable_elem cmp (b :: l2) (a :: l1) b Hc).
          + intros x. by rewrite Hst.
          + by left.
        - apply (Sorted_head_least cmp b l2 Hc Hs2).
          apply (stable_elem cmp (a :: l1) (b :: l2) a Hc Hst). by left. }
      assert (a = b) as ->.
      { specialize (Hst a).
        rewrite !filter_cons, decide_True in Hst by done.
        rewrite decide_True in Hst by apply Hrefl. congruence. }
      f_equal. apply IH.
      * by apply Sorted_inv in Hs1 as [? _].
      * by apply Sorted_inv in Hs2 as [? _].
      * intros x. specialize (Hst x). rewrite !filter_cons in Hst.
        destruct (decide (cmp x b = 0)); [congruence | done].
Qed.

(** For a consistent comparison function [sort_list] is the sort that the
    language prescribes: sorted, stable, and the only such
    rearrangement. *)
Lemma sort_list_prescribed cmp l :
  consistent cmp →
  Sorted (before cmp) (sort_list cmp l) ∧
  stable cmp l (sort_list cmp l) ∧
  ∀ l', Sorted (before cmp) l' → stable cmp l l' → l' = sort_list cmp l.
Proof.
  intros Hc. split_and!.
  - apply sort_list_Sorted. intros a b. by apply consistent_total.
  - by apply sort_list_stable.
  - intros l' Hs Hst. apply (sorted_stable_unique cmp); [done | done | |].
    + apply sort_list_Sorted. intros a b. by apply consistent_total.
    + intros x. rewrite (sort_list_stable cmp l Hc x). by rewrite Hst.
Qed.
End Sorting.

(* ===================================================================== *)
(** ** SignalList: the methods on the heap                                *)
(* ===================================================================== *)

(** A new array is none of the arrays that exist. *)
Lemma fresh_ne_l (X : gset positive) (l : positive) : l ∈ X → fresh X ≠ l.
Proof. intros Hl E. apply (is_fresh X). by rewrite E. Qed.

Lemma fresh_ne_r (X : gset positive) (l : positive) : l ∈ X → l ≠ fresh X.
Proof. intros Hl E. apply (is_fresh X). by rewrite <- E. Qed.

Ltac dom_solver :=
  rewrite ?dom_insert_L;
  repeat match goal with
    | |- _ ∈ {[ _ ]} ∪ _ =>
        first [ by apply elem_of_union_l, elem_of_singleton
              | apply elem_of_union_r ]
    end;
  assumption.
Ltac ne_solver :=
  first [ assumption | by apply not_eq_sym
        | apply fresh_ne_l; dom_solver | apply fresh_ne_r; dom_solver ].
Ltac hsimpl :=
  repeat first
    [ rewrite lookup_total_insert_eq
    | rewrite lookup_total_insert_ne by ne_solver ].
Ltac unfold_M :=
  unfold SignalList.slice, SignalList.array_push, SignalList.array_pop,
    SignalList.array_unshift, SignalList.array_shift,
    SignalList.array_splice, SignalList.array_sort, SignalList.array_filter,
    SignalList.notify, SignalList.get, SignalList.put, SignalList.set_data,
    SignalList.set_frozen, SignalList.set_frozenValue,
    SignalList.set_watchers, SignalList.load, SignalList.store,
    SignalList.alloc;
  unfold mbind, SignalList.M_bind, mret, SignalList.M_ret; simpl.

Section HeapFacts.
Import SignalList.
Context {T W : Type} `{EqDecision T, EqDecision W}.
Implicit Types (σ : config T W) (l : loc) (v : list T) (h : gmap loc (list T)).

Lemma for_of_spec (ws : list W) n o σ :
  for_of ws n o σ =
    (tt, Config (this σ) (heap σ)
           (log σ ++ dispatch ws n o (heap σ !!! n) (heap σ !!! o))).
Proof.
  revert σ. induction ws as [| w ws IH]; intros σ; simpl.
  - unfold dispatch; simpl. rewrite app_nil_r. by destruct σ.
  - unfold mbind, M_bind, invoke. rewrite IH. simpl.
    by rewrite <- app_assoc.
Qed.

Section Methods.
Variables (d : loc) (ws : list W) (fr : bool) (fv : loc)
          (h : gmap loc (list T)) (lg : list (call T W)).
Hypothesis (Hd : d ∈ dom h).

Abbreviation σ := (Config (mkList d ws fr fv) h lg).
Abbreviation v := (h !!! d).
Abbreviation l1 := (fresh (dom h)).
Abbreviation fires c := (if fr then [] else c) (only parsing).

Lemma push_eq xs :
  push xs σ =
    (length (v ++ xs),
     Config (mkList d ws fr fv) (<[d := v ++ xs]> (<[l1 := v]> h))
       (lg ++ fires (dispatch ws d l1 (v ++ xs) v))).
Proof.
  unfold push. unfold_M. hsimpl.
  destruct fr; simpl; [by rewrite app_nil_r |].
  rewrite for_of_spec; simpl. by hsimpl.
Qed.

Lemma unshift_eq xs :
  unshift xs σ =
    (length (xs ++ v),
     Config (mkList d ws fr fv) (<[d := xs ++ v]> (<[l1 := v]> h))
       (lg ++ fires (dispatch ws d l1 (xs ++ v) v))).
Proof.
  unfold unshift. unfold_M. hsimpl.
  destruct fr; simpl; [by rewrite app_nil_r |].
  rewrite for_of_spec; simpl. by hsimpl.
Qed.

Lemma pop_eq :
  pop σ =
    if decide (length v = 0%nat) then (None, σ)
    else (last v,
          Config (mkList d ws fr fv) (<[d := removelast v]> (<[l1 := v]> h))
            (lg ++ fires (dispatch ws d l1 (removelast v) v))).
Proof.
  unfold pop. unfold_M. case_decide; [done |]. simpl. hsimpl.
  destruct fr; simpl; [by rewrite app_nil_r |].
  rewrite for_of_spec; simpl. by hsimpl.
Qed.

Lemma shift_eq :
  shift σ =
    if decide (length v = 0%nat) then (None, σ)
    else (head v,
          Config (mkList d ws fr fv) (<[d := tail v]> (<[l1 := v]> h))
            (lg ++ fires (dispatch ws d l1 (tail v) v))).
Proof.
  unfold shift. unfold_M. case_decide; [done |]. simpl. hsimpl.
  destruct fr; simpl; [by rewrite app_nil_r |].
  rewrite for_of_spec; simpl. by hsimpl.
Qed.

Lemma splice_eq start dc xs :
  splice start dc xs σ =
    (splice_removed v start (default 0 dc),
     Config (mkList d ws fr fv)
       (<[d := splice_list v start (default 0 dc) xs]> (<[l1 := v]> h))
       (lg ++ if decide (0 < length (splice_removed v start (default 0%Z dc))
                         ∨ 0 < length xs)%nat
              then fires (dispatch ws d l1
                            (splice_list v start (default 0 dc) xs) v)
              else [])).
Proof.
  unfold splice. unfold_M. hsimpl.
  case_decide; simpl; [| by rewrite app_nil_r].
  destruct fr; simpl; [by rewrite app_nil_r |].
  rewrite for_of_spec; simpl. by hsimpl.
Qed.

Lemma removeByIndex_eq index :
  removeByIndex index σ =
    if decide (index < 0 ∨ index >= Z.of_nat (length v)) then (None, σ)
    else (head (splice_removed v index 1),
          Config (mkList d ws fr fv)
            (<[d := splice_list v index 1 []]> (<[l1 := v]> h))
            (lg ++ fires (dispatch ws d l1 (splice_list v index 1 []) v))).
Proof.
  unfold removeByIndex. unfold_M. case_decide; [done |]. simpl. hsimpl.
  destruct fr; simpl; [by rewrite app_nil_r |].
  rewrite for_of_spec; simpl. by hsimpl.
Qed.

Abbreviation l2 := (fresh (dom (<[l1 := v]> h))).

Lemma filterBy_eq callback :
  let kept := filter_list callback v in
  let removed := filter (λ item, ¬ includes kept item) v in
  filterBy callback σ =
    (removed,
     if decide (0 < length removed ∨ length kept ≠ length v)%nat
     then Config (mkList l2 ws fr fv) (<[l2 := kept]> (<[l1 := v]> h))
            (lg ++ fires (dispatch ws l2 l1 kept v))
     else Config (mkList d ws fr fv) (<[l2 := kept]> (<[l1 := v]> h)) lg).
Proof.
  unfold filterBy. unfold_M. hsimpl.
  destruct (decide _) as [Hc | Hc]; simpl; [| done].
  destruct fr; simpl; [by rewrite app_nil_r |].
  rewrite for_of_spec; simpl. by hsimpl.
Qed.

Lemma orderBy_eq compareFn :
  orderBy compareFn σ =
    (mkList d ws fr fv,
     Config (mkList d ws fr fv)
       (<[d := sort_list compareFn v]> (<[l1 := v]> h))
       (lg ++ if arraysShallowEqual (sort_list compareFn v) v then []
              else fires (dispatch ws d l1 (sort_list compareFn v) v))).
Proof.
  unfold orderBy. unfold_M. hsimpl.
  destruct (arraysShallowEqual _ _); simpl; [by rewrite app_nil_r |].
  destruct fr; simpl; [by rewrite app_nil_r |].
  rewrite for_of_spec; simpl. by hsimpl.
Qed.

Lemma remove_eq callback :
  let removedItems :=
    filter_list (λ item index _, callback item index v) v in
  let kept :=
    filter_list (λ item index _, negb (callback item index v)) v in
  remove callback σ =
    (removedItems,
     Config (mkList l2 ws fr fv) (<[l2 := kept]> (<[l1 := v]> h))
       (lg ++ if decide (0 < length removedItems)%nat
              then fires (dispatch ws l2 l1 kept v) else [])).
Proof.
  unfold remove. unfold_M. hsimpl. unfold filter_list.
  case_decide; simpl; [| by rewrite app_nil_r].
  destruct fr; simpl; [by rewrite app_nil_r |].
  rewrite for_of_spec; simpl. by hsimpl.
Qed.

Lemma set_value_eq newArray :
  set_value newArray σ =
    (tt,
     Config (mkList l1 ws fr fv) (<[l1 := h !!! newArray]> h)
       (lg ++ fires (dispatch ws l1 d (h !!! newArray) v))).
Proof.
  unfold set_value. unfold_M.
  destruct fr; simpl; [by rewrite app_nil_r |].
  rewrite for_of_spec; simpl. by hsimpl.
Qed.

Lemma value_eq :
  value σ = (l1, Config (mkList d ws fr fv) (<[l1 := v]> h) lg).
Proof. done. Qed.

Lemma pause_eq :
  pause σ = (tt, Config (mkList d ws true l1) (<[l1 := v]> h) lg).
Proof. done. Qed.

Lemma begin_eq :
  begin σ =
    (tt, Config (mkList d ws false fv) h
           (lg ++ dispatch ws d fv v (h !!! fv))).
Proof. unfold begin. unfold_M. by rewrite for_of_spec. Qed.
End Methods.

Lemma run_step m σ :
  wf σ →
  wf (run m σ).2 ∧
  watchers (this (run m σ).2) = watchers (this σ) ∧
  _frozen (this (run m σ).2) = _frozen (this σ) ∧
  _frozenValue (this (run m σ).2) = _frozenValue (this σ) ∧
  heap (run m σ).2 !!! _frozenValue (this σ)
    = heap σ !!! _frozenValue (this σ) ∧
  contents (run m σ).2 = mutate m (heap σ) (contents σ) ∧
  ∃ oldVal,
    oldVal ≠ data (this (run m σ).2) ∧
    oldVal ≠ _frozenValue (this σ) ∧
    (log (run m σ).2 = log σ ∨
     _frozen (this σ) = false ∧
     log (run m σ).2
       = log σ ++ dispatch (watchers (this σ)) (data (this (run m σ).2))
                    oldVal (contents (run m σ).2) (contents σ)) ∧
    (_frozen (this σ) = true → log (run m σ).2 = log σ).
Proof.
  destruct σ as [[d ws fr fv] h lg]. intros (Hd & Hf & Hne & Hnd).
  unfold wf, contents in *. simpl in *.
  destruct m; simpl run; unfold mbind, M_bind.
  - (* push *)
    rewrite push_eq by done. simpl. hsimpl.
    split_and!; try done; try dom_solver.
    exists (fresh (dom h)). split_and!; try ne_solver.
    + destruct fr; [left; by rewrite app_nil_r | by right].
    + intros ->. by rewrite app_nil_r.
  - (* pop *)
    rewrite pop_eq by done. destruct (decide _) as [Hlen | Hlen]; simpl; hsimpl.
    + apply length_zero_iff_nil in Hlen. rewrite Hlen.
      split_and!; try done.
      exists (fresh (dom h)). split_and!; try ne_solver; [by left | done].
    + split_and!; try done; try dom_solver.
      exists (fresh (dom h)). split_and!; try ne_solver.
      * destruct fr; [left; by rewrite app_nil_r | by right].
      * intros ->. by rewrite app_nil_r.
  - (* unshift *)
    rewrite unshift_eq by done. simpl. hsimpl.
    split_and!; try done; try dom_solver.
    exists (fresh (dom h)). split_and!; try ne_solver.
    + destruct fr; [left; by rewrite app_nil_r | by right].
    + intros ->. by rewrite app_nil_r.
  - (* shift *)
    rewrite shift_eq by done. destruct (decide _) as [Hlen | Hlen]; simpl; hsimpl.
    + apply length_zero_iff_nil in Hlen. rewrite Hlen.
      split_and!; try done.
      exists (fresh (dom h)). split_and!; try ne_solver; [by left | done].
    + split_and!; try done; try dom_solver.
      exists (fresh (dom h)). split_and!; try ne_solver.
      * destruct fr; [left; by rewrite app_nil_r | by right].
      * intros ->. by rewrite app_nil_r.
  - (* splice *)
    rewrite splice_eq by done. simpl. hsimpl.
    split_and!; try done; try dom_solver.
    exists (fresh (dom h)). split_and!; try ne_solver.
    + case_decide; [| left; by rewrite app_nil_r].
      destruct fr; [left; by rewrite app_nil_r | by right].
    + intros ->. case_decide; by rewrite app_nil_r.
  - (* removeByIndex *)
    rewrite removeByIndex_eq by done. destruct (decide _) as [Hi | Hi]; simpl; hsimpl.
    + rewrite decide_True by done. split_and!; try done.
      exists (fresh (dom h)). split_and!; try ne_solver; [by left | done].
    + rewrite decide_False by done.
      destruct (splice_one (h !!! d) index) as [-> _]; [lia |].
      split_and!; try done; try dom_solver.
      exists (fresh (dom h)). split_and!; try ne_solver.
      * destruct fr; [left; by rewrite app_nil_r | by right].
      * intros ->. by rewrite app_nil_r.
  - (* filterBy *)
    rewrite filterBy_eq by done. simpl. destruct (decide _) as [Hc | Hc]; simpl; hsimpl.
    + split_and!; try done; try dom_solver; try ne_solver.
      exists (fresh (dom h)). split_and!; try ne_solver.
      * destruct fr; [left; by rewrite app_nil_r | by right].
      * intros ->. by rewrite app_nil_r.
    + split_and!; try done; try dom_solver.
      * symmetry. apply filter_from_all.
        destruct (decide (length (filter_list callback (h !!! d))
                          = length (h !!! d))); [done |].
        destruct Hc. by right.
      * exists (fresh (dom h)). split_and!; try ne_solver; [by left | done].
  - (* orderBy *)
    rewrite orderBy_eq by done. simpl. hsimpl.
    split_and!; try done; try dom_solver.
    exists (fresh (dom h)). split_and!; try ne_solver.
    + destruct (arraysShallowEqual _ _); [left; by rewrite app_nil_r |].
      destruct fr; [left; by rewrite app_nil_r | by right].
    + intros ->. destruct (arraysShallowEqual _ _); by rewrite app_nil_r.
  - (* remove *)
    rewrite remove_eq by done. simpl. hsimpl.
    split_and!; try done; try dom_solver; try ne_solver.
    exists (fresh (dom h)). split_and!; try ne_solver.
    + case_decide; [| left; by rewrite app_nil_r].
      destruct fr; [left; by rewrite app_nil_r | by right].
    + intros ->. case_decide; by rewrite app_nil_r.
  - (* set value *)
    rewrite set_value_eq by done. simpl. hsimpl.
    split_and!; try done; try dom_solver; try ne_solver.
    exists d. split_and!; try ne_solver.
    + destruct fr; [left; by rewrite app_nil_r | by right].
    + intros ->. by rewrite app_nil_r.
Qed.

(** *** The invariant *)

Lemma new_wf (initial : option loc) h : wf (new (T:=T) (W:=W) initial h).
Proof.
  unfold wf, new; simpl. split_and!; try dom_solver.
  - apply fresh_ne_l. dom_solver.
  - constructor.
Qed.

Lemma new_contents (a : loc) h :
  a ∈ dom h → contents (new (T:=T) (W:=W) (Some a) h) = h !!! a.
Proof. intros Ha. unfold contents, new; simpl. by hsimpl. Qed.

Lemma listener_wf fn σ : wf σ → wf (listener fn σ).2.
Proof.
  intros (? & ? & ? & Hnd). unfold wf; simpl. split_and!; try done.
  case_decide as Hin; [done |]. apply NoDup_app. split_and!; [done | |].
  - intros x Hx ->%list_elem_of_singleton. contradiction.
  - apply NoDup_singleton.
Qed.

Lemma stop_wf fn σ : wf σ → wf (stop fn σ).2.
Proof.
  intros (? & ? & ? & Hnd). unfold wf; simpl. split_and!; try done.
  by apply NoDup_filter.
Qed.

Lemma pause_wf σ : wf σ → wf (pause σ).2.
Proof.
  intros (? & ? & ? & Hnd). unfold wf; simpl.
  split_and!; try done; try dom_solver. ne_solver.
Qed.

Lemma begin_wf σ : wf σ → wf (begin σ).2.
Proof.
  destruct σ as [[d ws fr fv] h lg]. intros (? & ? & ? & ?).
  simpl in *. by rewrite begin_eq.
Qed.

Lemma value_wf σ : wf σ → wf (value σ).2.
Proof.
  intros (? & ? & ? & Hnd). unfold wf; simpl.
  split_and!; try done; dom_solver.
Qed.

Lemma external_write_wf l u σ : wf σ → wf (external_write l u σ).2.
Proof.
  intros (? & ? & ? & Hnd). unfold wf; simpl.
  split_and!; try done; dom_solver.
Qed.

Lemma run_all_frozen ms σ :
  wf σ → _frozen (this σ) = true →
  wf (run_all ms σ).2 ∧
  watchers (this (run_all ms σ).2) = watchers (this σ) ∧
  _frozen (this (run_all ms σ).2) = true ∧
  _frozenValue (this (run_all ms σ).2) = _frozenValue (this σ) ∧
  heap (run_all ms σ).2 !!! _frozenValue (this σ)
    = heap σ !!! _frozenValue (this σ) ∧
  log (run_all ms σ).2 = log σ.
Proof.
  revert σ. induction ms as [| m ms IH]; intros σ Hwf Hfr; simpl; [done |].
  unfold mbind, M_bind. destruct (run m σ) as [[] σ1] eqn:Hrun.
  destruct (run_step m σ Hwf)
    as (Hwf1 & Hws & Hfr1 & Hfv & Hsnap & _ & _ & _ & _ & _ & Hlog).
  rewrite Hrun in *; simpl in *.
  destruct (IH σ1 Hwf1) as (? & Hws' & ? & Hfv' & Hsnap' & Hlog');
    [congruence |].
  split_and!; [done | congruence | done | congruence | | ].
  - by rewrite <- Hsnap, <- Hfv, Hsnap'.
  - rewrite Hlog'. by apply Hlog.
Qed.
End HeapFacts.

(* ===================================================================== *)
(** ** SignalList: notification                                           *)
(* ===================================================================== *)

Section ListClaims.
Import SignalList.
Context {T W : Type} `{EqDecision T, EqDecision W}.
Implicit Types (σ : config T W) (l : loc) (v : list T).

(** C9.  [pop()] and [shift()] on an empty collection, and
    [removeByIndex(index)] with [index < 0] or [index >= length], return
    [undefined] and leave the whole configuration as it was: the sequence
    is unchanged and no watcher is called. *)
Theorem list_remove_nothing σ :
  (contents σ = [] → pop σ = (None, σ) ∧ shift σ = (None, σ)) ∧
  (∀ index : Z,
     index < 0 ∨ index >= Z.of_nat (length (contents σ)) →
     removeByIndex index σ = (None, σ)).
Proof.
  unfold contents. split.
  - intros Hnil. unfold pop, shift. unfold_M. by rewrite Hnil.
  - intros index Hout. unfold removeByIndex. unfold_M.
    by rewrite decide_True.
Qed.


(** What [push] and [unshift] do on an unfrozen collection: the items are
    appended or prepended in place, the new length is returned, and every
    watcher is called once, whether or not an item was supplied. *)
Lemma list_push_unshift_spec (xs : list T) σ :
  wf σ → _frozen (this σ) = false →
  (push xs σ).1 = length (contents σ ++ xs) ∧
  this (push xs σ).2 = this σ ∧
  contents (push xs σ).2 = contents σ ++ xs ∧
  (∃ oldVal, (oldVal ∉ dom (heap σ)) ∧
     log (push xs σ).2
     = log σ ++ dispatch (watchers (this σ)) (data (this σ)) oldVal
                  (contents σ ++ xs) (contents σ)) ∧
  (unshift xs σ).1 = length (xs ++ contents σ) ∧
  this (unshift xs σ).2 = this σ ∧
  contents (unshift xs σ).2 = xs ++ contents σ ∧
  (∃ oldVal, (oldVal ∉ dom (heap σ)) ∧
     log (unshift xs σ).2
     = log σ ++ dispatch (watchers (this σ)) (data (this σ)) oldVal
                  (xs ++ contents σ) (contents σ)).
Proof.
  destruct σ as [[d ws fr fv] h lg]. intros (Hd & Hf & Hne & Hnd) Hfr.
  unfold contents in *. simpl in *. subst fr.
  rewrite push_eq, unshift_eq by done. simpl. hsimpl.
  split_and!; try done; exists (fresh (dom h)); (split; [apply is_fresh | done]).
Qed.

(** What [filterBy] does on an unfrozen collection: the sequence becomes
    the items on which the callback holds; the watchers are called once
    when that drops an item and not at all otherwise; the array returned
    holds the previous items that no kept item equals. *)
Lemma list_filterBy_spec (callback : T → nat → list T → bool) σ :
  wf σ → _frozen (this σ) = false →
  contents (filterBy callback σ).2 = filter_list callback (contents σ) ∧
  (∀ x, x ∈ contents (filterBy callback σ).2 ↔
        ∃ j, contents σ !! j = Some x ∧ callback x j (contents σ) = true) ∧
  (filterBy callback σ).1
  = filter (λ item, item ∉ filter_list callback (contents σ)) (contents σ) ∧
  (filter_list callback (contents σ) ≠ contents σ →
   ∃ oldVal, oldVal ≠ data (this (filterBy callback σ).2) ∧
     log (filterBy callback σ).2
     = log σ ++ dispatch (watchers (this σ))
                  (data (this (filterBy callback σ).2)) oldVal
                  (filter_list callback (contents σ)) (contents σ)) ∧
  (filter_list callback (contents σ) = contents σ →
   (filterBy callback σ).1 = [] ∧ log (filterBy callback σ).2 = log σ).
Proof.
  destruct σ as [[d ws fr fv] h lg]. intros (Hd & Hf & Hne & Hnd) Hfr.
  unfold contents in *. simpl in *. subst fr.
  rewrite filterBy_eq by done. simpl.
  set (v := h !!! d). set (kept := filter_list callback v).
  assert (Hfilter : filter (λ item, ¬ includes kept item) v
                    = filter (λ item, item ∉ kept) v).
  { apply list_filter_iff. intros x. unfold includes.
    by rewrite bool_decide_spec. }
  assert (Hnone : kept = v → filter (λ item, item ∉ kept) v = []).
  { intros ->. clearbody v. clear.
    assert (Hall : ∀ l : list T, (∀ x, x ∈ l → x ∈ v) →
                                 filter (λ item, item ∉ v) l = []).
    { induction l as [| x l IH]; intros Hl; [done |].
      rewrite filter_cons, decide_False.
      - apply IH. intros y Hy. apply Hl. by right.
      - intros Hx. apply Hx, Hl. by left. }
    by apply Hall. }
  assert (Hkept : ∀ x, x ∈ kept ↔
                       ∃ j, v !! j = Some x ∧ callback x j v = true).
  { intros x. unfold kept, filter_list. by rewrite filter_from_lookup. }
  rewrite Hfilter.
  destruct (decide _) as [Hc | Hc]; simpl; hsimpl.
  - split_and!; [done | done | done | |].
    + intros _. exists (fresh (dom h)). split; [ne_solver | done].
    + intros Hsame. rewrite Hnone in Hc by done. rewrite Hsame in Hc.
      simpl in Hc. destruct Hc as [Hc | Hc]; [lia | done].
  - assert (Hsame : kept = v).
    { apply filter_from_all.
      destruct (decide (length kept = length v)); [done |].
      destruct Hc. by right. }
    split_and!; [done | | done | done |].
    + intros x. rewrite <- Hkept. by rewrite Hsame.
    + intros _. by rewrite Hnone.
Qed.

(** C6, amended.  The setter [.value = newArray] makes a new array with
    the elements of [newArray] the internal sequence, frozen or not,
    without comparing the two sequences; the arrays that existed, the
    watchers, the frozen flag and the baseline are left as they were.  On
    an unfrozen collection it calls every watcher once with the new array
    and with the array it replaces; on a frozen collection it calls no
    watcher.  The getter returns a new array with the elements of the
    sequence and changes neither the object, nor the log of calls, nor any
    array that existed, frozen or not. *)
Theorem list_set_value_notifies (newArray : loc) σ :
  wf σ →
  (data (this (set_value newArray σ).2) ∉ dom (heap σ)) ∧
  contents (set_value newArray σ).2 = heap σ !!! newArray ∧
  (∀ l, l ∈ dom (heap σ) →
        heap (set_value newArray σ).2 !!! l = heap σ !!! l) ∧
  watchers (this (set_value newArray σ).2) = watchers (this σ) ∧
  _frozen (this (set_value newArray σ).2) = _frozen (this σ) ∧
  _frozenValue (this (set_value newArray σ).2) = _frozenValue (this σ) ∧
  (_frozen (this σ) = false →
   log (set_value newArray σ).2
   = log σ ++ dispatch (watchers (this σ))
                (data (this (set_value newArray σ).2)) (data (this σ))
                (heap σ !!! newArray) (contents σ)) ∧
  (_frozen (this σ) = true → log (set_value newArray σ).2 = log σ) ∧
  ((value σ).1 ∉ dom (heap σ)) ∧
  heap (value σ).2 !!! (value σ).1 = contents σ ∧
  this (value σ).2 = this σ ∧
  log (value σ).2 = log σ ∧
  (∀ l, l ∈ dom (heap σ) → heap (value σ).2 !!! l = heap σ !!! l).
Proof.
  destruct σ as [[d ws fr fv] h lg]. intros (Hd & Hf & Hne & Hnd).
  unfold contents in *. simpl in *.
  rewrite set_value_eq by done. simpl. hsimpl.
  split_and!; try done; try apply is_fresh.
  - intros l Hl. by hsimpl.
  - by intros ->.
  - intros ->. by rewrite app_nil_r.
  - intros l Hl. by hsimpl.
Qed.

(** C3, amended.  The getter returns a new array: it holds the sequence,
    and overwriting it changes neither the object, nor the sequence, nor
    the frozen baseline, nor what the getter returns next.  In every call
    that a mutator makes to a watcher, the old sequence is an array that
    the collection does not keep (neither as its data nor as its baseline)
    and holds the previous sequence, while the new sequence is the data
    array of the collection itself.  [begin()] hands the watchers the data
    array and the baseline array themselves. *)
Theorem list_arrays_handed_out σ :
  wf σ →
  (∀ u : list T,
     ((value σ).1 ∉ dom (heap σ)) ∧
     heap (value σ).2 !!! (value σ).1 = contents σ ∧
     this (external_write (value σ).1 u (value σ).2).2 = this σ ∧
     contents (external_write (value σ).1 u (value σ).2).2 = contents σ ∧
     heap (external_write (value σ).1 u (value σ).2).2
       !!! _frozenValue (this σ) = heap σ !!! _frozenValue (this σ) ∧
     heap (value (external_write (value σ).1 u (value σ).2).2).2
       !!! (value (external_write (value σ).1 u (value σ).2).2).1
     = contents σ) ∧
  (∀ m : mutator T, ∃ calls,
     log (run m σ).2 = log σ ++ calls ∧
     ∀ c, c ∈ calls →
          c_new c = data (this (run m σ).2) ∧
          c_old c ≠ data (this (run m σ).2) ∧
          c_old c ≠ _frozenValue (this (run m σ).2) ∧
          c_newval c = contents (run m σ).2 ∧
          c_oldval c = contents σ) ∧
  (∃ calls,
     log (begin σ).2 = log σ ++ calls ∧
     ∀ c, c ∈ calls →
          c_new c = data (this (begin σ).2) ∧
          c_old c = _frozenValue (this (begin σ).2)).
Proof.
  intros Hwf. split_and!.
  - destruct σ as [[d ws fr fv] h lg]. destruct Hwf as (Hd & Hf & Hne & Hnd).
    unfold contents, external_write, store. simpl in *. intros u. hsimpl.
    split_and!; try done. apply is_fresh.
  - intros m.
    destruct (run_step m σ Hwf)
      as (_ & _ & _ & Hfv & _ & _ & oldVal & Hold1 & Hold2 & Hlog & _).
    destruct Hlog as [Hlog | [_ Hlog]].
    + exists []. rewrite app_nil_r. split; [done |].
      by intros c ?%elem_of_nil.
    + eexists. split; [exact Hlog |].
      intros c (w & -> & _)%list_elem_of_fmap. simpl.
      split_and!; try done. by rewrite Hfv.
  - destruct σ as [[d ws fr fv] h lg]. destruct Hwf as (Hd & Hf & Hne & Hnd).
    simpl in *. rewrite begin_eq. simpl. eexists. split; [done |].
    by intros c (w & -> & _)%list_elem_of_fmap.
Qed.

(** C2, amended.  After [pause()], a mutator run on the frozen collection
    updates the sequence as it does otherwise and calls no watcher; no
    watcher is called during any run of mutators; and the [begin()] that
    follows unfreezes and calls every watcher once, with the sequence as it
    is after the mutators and the sequence as it was at [pause()].  From
    [1, 2, 3], the calls [pause()], [push(4)], [shift()], [push(5)],
    [begin()] make one call to the watcher, with the old sequence
    [1, 2, 3] and the new sequence [2, 3, 4, 5]. *)
Theorem list_pause_begin_coalesces (ms : list (mutator T)) σ :
  wf σ →
  (∀ (m : mutator T) (σf : config T W), wf σf → _frozen (this σf) = true →
           contents (run m σf).2 = mutate m (heap σf) (contents σf) ∧
           log (run m σf).2 = log σf) ∧
  _frozen (this (pause σ).2) = true ∧
  contents (pause σ).2 = contents σ ∧
  log (run_all ms (pause σ).2).2 = log σ ∧
  _frozen (this (begin (run_all ms (pause σ).2).2).2) = false ∧
  contents (begin (run_all ms (pause σ).2).2).2
  = contents (run_all ms (pause σ).2).2 ∧
  log (begin (run_all ms (pause σ).2).2).2
  = log σ ++ dispatch (watchers (this σ))
               (data (this (run_all ms (pause σ).2).2))
               (_frozenValue (this (pause σ).2))
               (contents (run_all ms (pause σ).2).2) (contents σ) ∧
  log (begin (run_all [Push [4]; Shift; Push [5]]
                (pause (example [1; 2; 3])).2).2).2
  = [Call 7%nat 3%positive 4%positive [2; 3; 4; 5] [1; 2; 3]].
Proof.
  intros Hwf. split.
  { intros m σf Hwff Hfr.
    destruct (run_step m σf Hwff)
      as (_ & _ & _ & _ & _ & Heff & _ & _ & _ & _ & Hlog).
    split; [done | by apply Hlog]. }
  pose proof (pause_wf _ Hwf) as Hwf1.
  destruct (run_all_frozen ms (pause σ).2 Hwf1)
    as (Hwf2 & Hws & Hfr & Hfv & Hsnap & Hlog); [done |].
  assert (Hsnap0 : heap (pause σ).2 !!! _frozenValue (this (pause σ).2)
                   = contents σ).
  { destruct σ as [[d ws fr fv] h lg]. unfold contents. simpl.
    by rewrite lookup_total_insert_eq. }
  assert (Hc1 : contents (pause σ).2 = contents σ).
  { destruct σ as [[d ws fr fv] h lg].
    destruct Hwf as (Hd & _). unfold contents. simpl in *. by hsimpl. }
  split_and!; [done | done | done | | | | by vm_compute].
  - destruct (run_all ms (pause σ).2).2 as [[d ws fr fv] h lg].
    by rewrite begin_eq.
  - destruct (run_all ms (pause σ).2).2 as [[d ws fr fv] h lg].
    by rewrite begin_eq.
  - rewrite <- Hsnap0, <- Hsnap, <- Hfv.
    destruct (run_all ms (pause σ).2).2 as [[d ws fr fv] h lg] eqn:Hrun.
    destruct Hwf2 as (Hd & _). simpl in *. rewrite begin_eq. simpl.
    unfold contents; simpl. by rewrite Hlog, Hws.
Qed.
End ListClaims.

(* ===================================================================== *)
(** ** SignalList: worked examples on collections of integers             *)
(* ===================================================================== *)

Lemma example_wf (xs : list Z) : SignalList.wf (SignalList.example xs).
Proof. apply listener_wf, new_wf. Qed.

Lemma example_contents (xs : list Z) :
  SignalList.contents (SignalList.example xs) = xs.
Proof.
  unfold SignalList.example. simpl.
  change (SignalList.contents
            (SignalList.new (W:=nat) (Some 1%positive) {[1%positive := xs]})
          = xs).
  rewrite new_contents.
  - apply lookup_total_singleton_eq.
  - rewrite dom_singleton_L. by apply elem_of_singleton.
Qed.

Lemma ascending_consistent : SignalList.consistent SignalList.ascending.
Proof. unfold SignalList.consistent, SignalList.ascending. split_and!; lia. Qed.

(** [pop()] on an empty collection and [removeByIndex(3)] on [1, 2, 3]. *)
Lemma list_remove_nothing_witness :
  SignalList.contents (SignalList.example []) = [] ∧
  SignalList.pop (SignalList.example []) = (None, SignalList.example []) ∧
  SignalList.removeByIndex 3 (SignalList.example [1; 2; 3])
  = (None, SignalList.example [1; 2; 3]).
Proof.
  destruct (list_remove_nothing (SignalList.example [])) as [Hempty _].
  destruct (list_remove_nothing (SignalList.example [1; 2; 3]))
    as [_ Hrange].
  split_and!.
  - apply example_contents.
  - apply Hempty, example_contents.
  - apply Hrange. right. rewrite example_contents. simpl. lia.
Defined.


(** C4 at its failing input.  [push()] and [unshift()] without an item on
    the unfrozen collection [1, 2, 3]: the length 3 is returned, the
    sequence is as before, and the watcher is called, with the array and a
    copy that hold the same sequence. *)
Theorem list_push_nothing_notifies :
  SignalList._frozen (SignalList.this (SignalList.example [1; 2; 3]))
  = false ∧
  (SignalList.push [] (SignalList.example [1; 2; 3])).1 = 3%nat ∧
  SignalList.contents (SignalList.push [] (SignalList.example [1; 2; 3])).2
  = [1; 2; 3] ∧
  SignalList.log (SignalList.push [] (SignalList.example [1; 2; 3])).2
  = [SignalList.Call 7%nat 3%positive 4%positive [1; 2; 3] [1; 2; 3]] ∧
  (SignalList.unshift [] (SignalList.example [1; 2; 3])).1 = 3%nat ∧
  SignalList.log (SignalList.unshift [] (SignalList.example [1; 2; 3])).2
  = [SignalList.Call 7%nat 3%positive 4%positive [1; 2; 3] [1; 2; 3]].
Proof. by vm_compute. Qed.

(** C8 at its failing input.  [filterBy((item, index) => index === 0)] on
    the unfrozen collection [1, 1]: the second item is removed, the
    sequence becomes [1] and the watcher is called once, but the array
    returned is empty. *)
Theorem list_filterBy_duplicate_not_returned :
  (SignalList.filterBy SignalList.first_only (SignalList.example [1; 1])).1
  = [] ∧
  SignalList.contents
    (SignalList.filterBy SignalList.first_only (SignalList.example [1; 1])).2
  = [1] ∧
  SignalList.log
    (SignalList.filterBy SignalList.first_only (SignalList.example [1; 1])).2
  = [SignalList.Call 7%nat 5%positive 4%positive [1] [1; 1]].
Proof. by vm_compute. Qed.

(** [remove] with the same callback on the same collection returns the
    removed item. *)
Lemma list_remove_duplicate_returned :
  (SignalList.remove (λ item index arr, negb (SignalList.first_only item index arr))
     (SignalList.example [1; 1])).1 = [1] ∧
  SignalList.contents
    (SignalList.remove
       (λ item index arr, negb (SignalList.first_only item index arr))
       (SignalList.example [1; 1])).2 = [1].
Proof. by vm_compute. Qed.

(** C6 as stated fails on a frozen collection: the array [a] holds 9, the
    collection holds [1, 2, 3] and was paused; the setter [.value = a]
    replaces the sequence by 9 and the registered watcher is not
    called. *)
Lemma list_set_value_notifies_counterexample :
  let σ0 := (SignalList.pause
               (SignalList.external_write 1%positive [9]
                  (SignalList.example [1; 2; 3])).2).2 in
  SignalList.watchers (SignalList.this σ0) = [7%nat] ∧
  SignalList._frozen (SignalList.this σ0) = true ∧
  SignalList.heap σ0 !!! 1%positive = [9] ∧
  SignalList.contents σ0 = [1; 2; 3] ∧
  SignalList.log σ0 = [] ∧
  SignalList.contents (SignalList.set_value 1%positive σ0).2 = [9] ∧
  SignalList.log (SignalList.set_value 1%positive σ0).2 = [].
Proof. by vm_compute. Qed.

(** The setter given an array that holds 9 on the collection [1, 2, 3],
    unfrozen and then paused. *)
Lemma list_set_value_notifies_witness :
  let σ1 := (SignalList.external_write 1%positive [9]
               (SignalList.example [1; 2; 3])).2 in
  SignalList.wf σ1 ∧
  SignalList.contents (SignalList.set_value 1%positive σ1).2 = [9] ∧
  SignalList.log (SignalList.set_value 1%positive σ1).2
  = [SignalList.Call 7%nat 4%positive 3%positive [9] [1; 2; 3]] ∧
  SignalList.contents
    (SignalList.set_value 1%positive (SignalList.pause σ1).2).2 = [9] ∧
  SignalList.log
    (SignalList.set_value 1%positive (SignalList.pause σ1).2).2 = [].
Proof.
  intros σ1.
  assert (Hwf1 : SignalList.wf σ1)
    by apply external_write_wf, example_wf.
  assert (Hwf2 : SignalList.wf (SignalList.pause σ1).2)
    by apply pause_wf, Hwf1.
  destruct (list_set_value_notifies 1%positive σ1 Hwf1)
    as (_ & Hseq1 & _ & _ & _ & _ & Hlog1 & _).
  destruct (list_set_value_notifies 1%positive (SignalList.pause σ1).2 Hwf2)
    as (_ & Hseq2 & _ & _ & _ & _ & _ & Hlog2 & _).
  split_and!.
  - exact Hwf1.
  - rewrite Hseq1. by vm_compute.
  - rewrite Hlog1 by reflexivity. by vm_compute.
  - rewrite Hseq2. by vm_compute.
  - rewrite Hlog2 by reflexivity. by vm_compute.
Defined.

(** C3 as stated fails for the new sequence: after [push(4)] on
    [1, 2, 3] the watcher holds the data array itself, and what it writes
    into that array is what the collection holds and what [.value] returns
    next. *)
Lemma list_arrays_handed_out_counterexample :
  let σ1 := (SignalList.push [4] (SignalList.example [1; 2; 3])).2 in
  let c := SignalList.Call 7%nat 3%positive 4%positive
             [1; 2; 3; 4] [1; 2; 3] in
  let σ2 := (SignalList.external_write (SignalList.c_new c)
               [1; 2; 3; 4; 99] σ1).2 in
  SignalList.log σ1 = [c] ∧
  SignalList.c_new c = SignalList.data (SignalList.this σ1) ∧
  SignalList.contents σ1 = [1; 2; 3; 4] ∧
  SignalList.contents σ2 = [1; 2; 3; 4; 99] ∧
  SignalList.heap (SignalList.value σ2).2 !!! (SignalList.value σ2).1
  = [1; 2; 3; 4; 99].
Proof. by vm_compute. Qed.

(** The getter and [push(4)] on [1, 2, 3]. *)
Lemma list_arrays_handed_out_witness :
  SignalList.wf (SignalList.example [1; 2; 3]) ∧
  SignalList.contents
    (SignalList.external_write
       (SignalList.value (SignalList.example [1; 2; 3])).1 [99]
       (SignalList.value (SignalList.example [1; 2; 3])).2).2
  = [1; 2; 3].
Proof.
  destruct (list_arrays_handed_out (SignalList.example [1; 2; 3])
              (example_wf _)) as (Hget & _ & _).
  destruct (Hget [99]) as (_ & _ & _ & Hsame & _).
  split; [apply example_wf |]. rewrite Hsame. apply example_contents.
Defined.

(** C2 as stated fails in its example: from [1, 2, 3], after [pause()],
    [push(4)], [shift()], [push(5)] and [begin()], the one call made has the
    new sequence [2, 3, 4, 5], not [2, 4, 5]. *)
Lemma list_pause_begin_coalesces_counterexample :
  let σ3 := (SignalList.begin
               (SignalList.run_all
                  [SignalList.Push [4]; SignalList.Shift; SignalList.Push [5]]
                  (SignalList.pause (SignalList.example [1; 2; 3])).2).2).2 in
  SignalList.log σ3
  = [SignalList.Call 7%nat 3%positive 4%positive [2; 3; 4; 5] [1; 2; 3]] ∧
  ∀ c, c ∈ SignalList.log σ3 → SignalList.c_newval c ≠ [2; 4; 5].
Proof.
  intros σ3.
  assert (Hlog : SignalList.log σ3
                 = [SignalList.Call 7%nat 3%positive 4%positive
                      [2; 3; 4; 5] [1; 2; 3]]) by (by vm_compute).
  rewrite Hlog. split; [done |].
  by intros c ->%list_elem_of_singleton.
Qed.

(** The same calls, through the theorem. *)
Lemma list_pause_begin_coalesces_witness :
  SignalList.wf (SignalList.example [1; 2; 3]) ∧
  SignalList.log
    (SignalList.run_all
       [SignalList.Push [4]; SignalList.Shift; SignalList.Push [5]]
       (SignalList.pause (SignalList.example [1; 2; 3])).2).2 = [] ∧
  SignalList.log
    (SignalList.begin
       (SignalList.run_all
          [SignalList.Push [4]; SignalList.Shift; SignalList.Push [5]]
          (SignalList.pause (SignalList.example [1; 2; 3])).2).2).2
  = [SignalList.Call 7%nat 3%positive 4%positive [2; 3; 4; 5] [1; 2; 3]].
Proof.
  destruct (list_pause_begin_coalesces
              [SignalList.Push [4]; SignalList.Shift; SignalList.Push [5]]
              (SignalList.example [1; 2; 3]) (example_wf _))
    as (_ & _ & _ & Hquiet & _ & _ & _ & Hone).
  split_and!; [apply example_wf | exact Hquiet | exact Hone].
Defined.

(* ===================================================================== *)
(** ** Signal: registration and runs of writes                            *)
(* ===================================================================== *)

Section SignalRuns.
Import Signal.
Context {T W : Type} `{EqDecision T, EqDecision W}.
Implicit Types (s : JinjxSignal T W) (w : W) (v : T) (vs : list T).

Lemma set_delete_not_elem w (l : list W) : w ∉ l → set_delete w l = l.
Proof.
  intros Hw. unfold set_delete. induction l as [| x l IH]; [done |].
  apply not_elem_of_cons in Hw as [Hne Hw].
  rewrite filter_cons, decide_True by done. by rewrite IH.
Qed.

Lemma set_delete_app (w : W) (l k : list W) :
  set_delete w (l ++ k) = set_delete w l ++ set_delete w k.
Proof. apply filter_app. Qed.

(** X1.  The listeners are a set: registering twice is registering once,
    registering a registered watcher and removing an unregistered one
    change nothing, removing a watcher just registered restores the
    signal, and a removed watcher is not registered. *)
Theorem signal_listener_set w s :
  listens w (listens w s) = listens w s ∧
  (w ∈ listeners s → listens w s = s) ∧
  (w ∉ listeners s → off w s = s ∧ off w (listens w s) = s) ∧
  w ∉ listeners (off w s).
Proof.
  destruct s as [val ls]. split_and!.
  - apply listens_twice.
  - simpl. intros Hin. unfold listens, set_add; simpl. by rewrite decide_True.
  - simpl. intros Hnin. unfold off, listens, set_add; simpl.
    rewrite decide_False by done.
    rewrite set_delete_app, (set_delete_not_elem w ls) by done.
    split; [done |]. unfold set_delete. rewrite filter_cons, decide_False.
    + by rewrite app_nil_r.
    + by intros Hne.
  - simpl. unfold set_delete. rewrite list_elem_of_filter. by intros [Hne _].
Qed.

Lemma set_value_off (chg : T → T → bool) w v s :
  set_value chg v (off w s)
  = (off w (set_value chg v s).1,
     filter (λ c, c_watcher c ≠ w) (set_value chg v s).2).
Proof.
  unfold set_value, off; simpl.
  destruct (chg v (_value s)); simpl; [| done].
  f_equal. unfold notify; simpl. rewrite !for_of_calls.
  unfold set_delete, value; simpl.
  induction (listeners s) as [| x l IH]; [done |].
  rewrite fmap_cons, !filter_cons. simpl.
  destruct (decide (x ≠ w)); simpl; [f_equal |]; apply IH.
Qed.

(** X2.  A watcher that was removed is not called by any later write, and the
    writes and the calls to the other watchers are what they would be
    without the removal. *)
Theorem signal_off_silences (chg : T → T → bool) w vs s :
  _value (writes chg vs (off w s)).1 = _value (writes chg vs s).1 ∧
  (writes chg vs (off w s)).2
  = filter (λ c, c_watcher c ≠ w) (writes chg vs s).2 ∧
  invocations w (writes chg vs (off w s)).2 = 0%nat.
Proof.
  assert (Hrun : (writes chg vs (off w s)).1 = off w (writes chg vs s).1 ∧
                 (writes chg vs (off w s)).2
                 = filter (λ c, c_watcher c ≠ w) (writes chg vs s).2).
  { revert s. induction vs as [| v vs IH]; intros s; simpl; [done |].
    rewrite set_value_off; simpl. destruct (IH (set_value chg v s).1) as [-> ->].
    by rewrite filter_app. }
  destruct Hrun as [Hs Hc]. rewrite Hs, Hc. split_and!; [done | done |].
  unfold invocations. apply length_zero_iff_nil. clear Hs Hc.
  induction (writes chg vs s).2 as [| c l IH]; [done |].
  rewrite filter_cons. destruct (decide (c_watcher c ≠ w)) as [Hne | Heq].
  - rewrite filter_cons. destruct (decide (c_watcher c = w)); [contradiction | apply IH].
  - apply IH.
Qed.

Lemma writes_listeners (chg : T → T → bool) vs s :
  listeners (writes chg vs s).1 = listeners s.
Proof.
  revert s. induction vs as [| v vs IH]; intros s; simpl; [done |].
  rewrite IH. unfold set_value. by destruct (chg v (_value s)).
Qed.

Lemma last_default_cons (a v : T) vs :
  default v (last vs) = default a (last (v :: vs)).
Proof.
  rewrite last_cons. destruct (last vs); done.
Qed.

(** X3.  Under the default predicate a run of writes leaves the last value
    written (the value as it was when nothing is written) and the same
    listeners, and every call it makes goes to a registered watcher, with a
    new value that differs from the old one and is what the signal holds
    during the call. *)
Theorem signal_writes_default vs s :
  _value (writes changed vs s).1 = default (_value s) (last vs) ∧
  listeners (writes changed vs s).1 = listeners s ∧
  ∀ c, c ∈ (writes changed vs s).2 →
       c_new c ≠ c_old c ∧ c_seen c = c_new c ∧ c_watcher c ∈ listeners s.
Proof.
  revert s. induction vs as [| v vs IH]; intros s; simpl.
  - split_and!; [done | done | by intros c ?%elem_of_nil].
  - rewrite signal_default_write.
    destruct (IH (if decide (v = _value s) then s
                  else mkSignal v (listeners s))) as (Hval & Hls & Hcalls).
    destruct (decide (v = _value s)) as [-> | Hne]; simpl in *.
    + rewrite Hval, Hls. split_and!; [| done | done].
      apply last_default_cons.
    + rewrite Hval, Hls. split_and!; [| done |].
      * apply last_default_cons.
      * intros c [Hc | Hc]%elem_of_app; [| by apply Hcalls].
        apply list_elem_of_fmap in Hc as (x & -> & Hx). done.
Qed.

Lemma set_value_calls_to (chg : T → T → bool) w v s :
  NoDup (listeners s) → w ∈ listeners s →
  (λ c, (c_new c, c_old c)) <$> filter (λ c, c_watcher c = w)
                                  (set_value chg v s).2
  = (if chg v (_value s) then [(v, _value s)] else []) ∧
  _value (set_value chg v s).1 = (if chg v (_value s) then v else _value s) ∧
  listeners (set_value chg v s).1 = listeners s.
Proof.
  intros Hnd Hw. unfold set_value. destruct (chg v (_value s)); simpl; [| done].
  split; [| done]. unfold notify; simpl. rewrite for_of_calls.
  unfold value; simpl. revert Hw.
  induction Hnd as [| x l Hx Hnd IHl]; [by intros ?%elem_of_nil |].
  intros Hw. rewrite fmap_cons, filter_cons. simpl.
  destruct (decide (x = w)) as [-> | Hne].
  - rewrite fmap_cons. simpl. f_equal.
    replace (filter (λ c : call T W, c_watcher c = w)
               ((λ w0, Call w0 v (_value s) v) <$> l)) with (@nil (call T W));
      [done |].
    symmetry. clear IHl Hw Hnd. induction l as [| y l IHl]; [done |].
    apply not_elem_of_cons in Hx as [Hy Hx].
    rewrite fmap_cons, filter_cons. simpl.
    rewrite decide_False by done. by apply IHl.
  - apply IHl. apply elem_of_cons in Hw as [-> | Hw]; done.
Qed.

(** X4.  Each registered watcher is called once for every write that changes the
    value under the predicate in use, in order, with the value written and
    the value it replaces, and for no other write. *)
Theorem signal_calls_are_changes (chg : T → T → bool) w vs s :
  NoDup (listeners s) → w ∈ listeners s →
  (λ c, (c_new c, c_old c)) <$> filter (λ c, c_watcher c = w)
                                  (writes chg vs s).2
  = changes chg (_value s) vs.
Proof.
  revert s. induction vs as [| v vs IH]; intros s Hnd Hw; simpl; [done |].
  destruct (set_value_calls_to chg w v s Hnd Hw) as (Hcalls & Hval & Hls).
  rewrite filter_app, fmap_app, Hcalls, IH by (by rewrite Hls).
  rewrite Hval. by destruct (chg v (_value s)).
Qed.

(** X5.  [state(reaction, initialValue)]: [get()] first returns the initial
    value and after [set(v)] returns [v]; [set] with the value held calls
    nothing; [set(v)] with another value calls [reaction] once, and what
    [reaction] receives as its parameter [oldVal] is the value just
    written, and as [newVal] the value replaced. *)
Theorem state_reaction_arguments (reaction : W) (initialValue : T) vs v :
  Jinjx.get (Jinjx.state reaction initialValue) = initialValue ∧
  Jinjx.get
    (Jinjx.set v (writes changed vs (Jinjx.state reaction initialValue)).1).1
  = v ∧
  (v = Jinjx.get (writes changed vs (Jinjx.state reaction initialValue)).1 →
   (Jinjx.set v (writes changed vs (Jinjx.state reaction initialValue)).1).2
   = []) ∧
  (v ≠ Jinjx.get (writes changed vs (Jinjx.state reaction initialValue)).1 →
   ∃ c,
     (Jinjx.set v (writes changed vs (Jinjx.state reaction initialValue)).1).2
     = [c] ∧
     c_watcher c = reaction ∧
     Jinjx.reaction_oldVal c = v ∧
     Jinjx.reaction_newVal c
     = Jinjx.get (writes changed vs (Jinjx.state reaction initialValue)).1).
Proof.
  pose proof (writes_listeners changed vs
                (Jinjx.state reaction initialValue)) as Hls.
  unfold Jinjx.get, Jinjx.set, value.
  set (s := (writes changed vs (Jinjx.state reaction initialValue)).1) in *.
  rewrite signal_default_write. split_and!.
  - done.
  - by destruct (decide (v = _value s)).
  - intros Heq. by rewrite decide_True.
  - intros Hne. rewrite decide_False by done. simpl. rewrite Hls.
    by eexists.
Qed.
End SignalRuns.

(** Watcher 10 registered on a signal that holds 1 with watcher 20. *)
Lemma signal_listener_set_witness :
  Signal.listens 20%nat (Signal.mkSignal 1 [20%nat])
  = Signal.mkSignal 1 [20%nat] ∧
  Signal.off 10%nat (Signal.listens 10%nat (Signal.mkSignal 1 [20%nat]))
  = Signal.mkSignal 1 [20%nat].
Proof.
  destruct (signal_listener_set 20%nat (Signal.mkSignal 1 [20%nat]))
    as (_ & Hin & _).
  destruct (signal_listener_set 10%nat (Signal.mkSignal 1 [20%nat]))
    as (_ & _ & Hout & _).
  split.
  - apply Hin. compute_done.
  - apply Hout. compute_done.
Defined.

(** The writes 1, 2, 2, 3, 1 on a signal that holds 1. *)
Lemma signal_calls_are_changes_witness :
  (λ c, (Signal.c_new c, Signal.c_old c))
    <$> filter (λ c, Signal.c_watcher c = 20%nat)
          (Signal.writes Signal.changed [1; 2; 2; 3; 1]
             (Signal.mkSignal 1 [10%nat; 20%nat])).2
  = [(2, 1); (3, 2); (1, 3)].
Proof.
  rewrite (signal_calls_are_changes Signal.changed 20%nat [1; 2; 2; 3; 1]
             (Signal.mkSignal 1 [10%nat; 20%nat])).
  - reflexivity.
  - compute_done.
  - compute_done.
Defined.

(** [state(r, 1)], then [set(1)] and [set(5)]. *)
Lemma state_reaction_arguments_witness :
  (Jinjx.set 1 (Jinjx.state 7%nat 1)).2 = [] ∧
  ∃ c, (Jinjx.set 5 (Jinjx.state 7%nat 1)).2 = [c] ∧
       Jinjx.reaction_oldVal c = 5 ∧ Jinjx.reaction_newVal c = 1.
Proof.
  destruct (state_reaction_arguments 7%nat 1 [] 1) as (_ & _ & Hsame & _).
  destruct (state_reaction_arguments 7%nat 1 [] 5) as (_ & _ & _ & Hnew).
  split.
  - by apply Hsame.
  - destruct Hnew as (c & Hc & _ & Hold & Hnew); [done |].
    exists c. by split_and!.
Defined.

(* ===================================================================== *)
(** ** Scope: completion and reuse                                        *)
(* ===================================================================== *)

Section ScopeRuns.
Import Scope.
Context {Host Action : Type}.
Implicit Types (s : JinjxScope Host Action) (throws : Action → bool).

Lemma for_of_completion throws (store : list Action) :
  ((for_of throws store).2 = Returned ↔
   Forall (λ a, throws a = false) store) ∧
  ((for_of throws store).2 = Thrown →
   ∃ pre a, (for_of throws store).1 = pre ++ [a] ∧ throws a = true ∧
            Forall (λ x, throws x = false) pre).
Proof.
  induction store as [| a store [IHr IHt]]; simpl.
  - split; [done | discriminate].
  - destruct (throws a) eqn:Ha; simpl.
    + split.
      * split; [discriminate |]. intros Hall. inversion Hall; congruence.
      * intros _. exists [], a. done.
    + destruct (for_of throws store) as [invoked c]; simpl in *. split.
      * rewrite IHr. split; [by constructor |]. by inversion 1.
      * intros Hc. destruct (IHt Hc) as (pre & b & -> & Hb & Hpre).
        exists (a :: pre), b. split_and!; [done | done | by constructor].
Qed.

(** X7.  [dispose()] only ever invokes a prefix of the registered actions, in
    order.  It returns exactly when none of them throws, and then has
    invoked them all and emptied the list.  Otherwise it ends by the
    exception of the last action it invoked, the only one invoked that
    throws, and leaves the scope as it was. *)
Theorem scope_dispose_completion throws s :
  (dispose throws s).1.2 `prefix_of` _effectStore s ∧
  ((dispose throws s).2 = Returned ↔
   Forall (λ a, throws a = false) (_effectStore s)) ∧
  ((dispose throws s).2 = Returned →
   (dispose throws s).1.2 = _effectStore s ∧
   _effectStore (dispose throws s).1.1 = []) ∧
  ((dispose throws s).2 = Thrown →
   (dispose throws s).1.1 = s ∧
   ∃ pre a, (dispose throws s).1.2 = pre ++ [a] ∧ throws a = true ∧
            Forall (λ x, throws x = false) pre).
Proof.
  pose proof (for_of_prefix throws (_effectStore s)) as Hpre.
  destruct (for_of_completion throws (_effectStore s)) as [Hret Hthr].
  unfold dispose.
  destruct (for_of throws (_effectStore s)) as [invoked [|]] eqn:Hfor;
    simpl in *.
  - split_and!; [done | done | | discriminate].
    intros _. split; [| done].
    rewrite (for_of_returns _ _ (proj1 Hret eq_refl)) in Hfor. congruence.
  - split_and!; [done | done | discriminate |]. intros _. split; [done |].
    by apply Hthr.
Qed.

Lemma effect_all_store s (later : list Action) :
  _effectStore (foldl (λ s' a, effect a s') s later) = _effectStore s ++ later ∧
  host (foldl (λ s' a, effect a s') s later) = host s.
Proof.
  revert s. induction later as [| a later IH]; intros s; simpl.
  - by rewrite app_nil_r.
  - destruct (IH (effect a s)) as [-> ->]. simpl. by rewrite <- app_assoc.
Qed.

(** X8.  A scope can be used again: [dispose()] on a new scope invokes nothing,
    actions registered with [effect] are invoked in the order of their
    registration, and after a [dispose()] that returned, the actions
    registered next are the only ones the next [dispose()] invokes. *)
Theorem scope_reuse throws s (later : list Action) (h : Host) :
  Forall (λ a, throws a = false) (_effectStore s) →
  Forall (λ a, throws a = false) later →
  dispose throws (new h) = (new h, [], Returned) ∧
  dispose throws (foldl (λ s' a, effect a s') (new h) later)
  = (new h, later, Returned) ∧
  dispose throws (foldl (λ s' a, effect a s') (dispose throws s).1.1 later)
  = (mkScope (host s) [], later, Returned).
Proof.
  intros Hs Hlater.
  assert (Hd : ∀ s', Forall (λ a, throws a = false) (_effectStore s') →
                     dispose throws s'
                     = (mkScope (host s') [], _effectStore s', Returned)).
  { intros s' Hok. unfold dispose. by rewrite (for_of_returns _ _ Hok). }
  split_and!; [done | |].
  - destruct (effect_all_store (new h) later) as [Hstore Hhost].
    rewrite Hd by (by rewrite Hstore). by rewrite Hstore, Hhost.
  - rewrite (Hd s Hs). simpl.
    destruct (effect_all_store (mkScope (host s) []) later) as [Hstore Hhost].
    rewrite Hd by (by rewrite Hstore). by rewrite Hstore, Hhost.
Qed.
End ScopeRuns.

(* ===================================================================== *)
(** ** Scope: delegated events                                            *)
(* ===================================================================== *)

Section DelegationFacts.
Import Delegation.
Context {Target Selector Handler EventName UserAction Host : Type}
        `{EqDecision Selector, EqDecision Handler, EqDecision EventName}.
Variable matches : Target → Selector → bool.
Implicit Types (w : world Selector Handler EventName)
               (s : Scope.JinjxScope Host
                      (action Selector Handler EventName UserAction))
               (rs : list (registration Selector Handler EventName UserAction))
               (throws : UserAction → bool).

Lemma dispatch_app (n : EventName) (target : option Target)
    (ls ks : list (EventName * callback Selector Handler)) (k k' : nat) :
  dispatch matches n target (World (ls ++ ks) k)
  = dispatch matches n target (World ls k')
    ++ dispatch matches n target (World ks k').
Proof. unfold dispatch; simpl. apply flat_map_app. Qed.

Lemma delegate_eq (n : EventName) (sel : Selector) (h : Handler) s w :
  known w →
  delegate n sel h s w
  = (Scope.mkScope (Scope.host s)
       (Scope._effectStore s ++ [Detach n (Computed (closures w) sel h)]),
     World (el_listeners w ++ [(n, Computed (closures w) sel h)])
           (S (closures w))).
Proof.
  intros Hk. unfold delegate, event, addEventListener; simpl.
  rewrite decide_False; [done |].
  intros Hin. apply Hk in Hin. simpl in Hin. lia.
Qed.

(** X9.  A delegated handler runs exactly for the events of its type whose
    target matches its selector, after the listeners the host had, with the
    event's target; events of other types, events without a target and
    targets that do not match reach no delegated handler. *)
Theorem delegate_filters (n : EventName) (sel : Selector) (h : Handler)
    (target : option Target) s w :
  known w →
  known (delegate n sel h s w).2 ∧
  dispatch matches n target (delegate n sel h s w).2
  = dispatch matches n target w
    ++ match target with
       | Some t => if matches t sel then [(h, t)] else []
       | None => []
       end ∧
  ∀ m, m ≠ n →
       dispatch matches m target (delegate n sel h s w).2
       = dispatch matches m target w.
Proof.
  intros Hk. rewrite (delegate_eq n sel h s w Hk). simpl.
  destruct w as [ls k]. simpl in *. split_and!.
  - intros l [Hl | ->%list_elem_of_singleton]%elem_of_app; simpl.
    + apply Hk in Hl. simpl in Hl. lia.
    + lia.
  - rewrite (dispatch_app n target ls _ (S k) k). f_equal.
    unfold dispatch; simpl. rewrite decide_True by done.
    by rewrite app_nil_r.
  - intros m Hm. rewrite (dispatch_app m target ls _ (S k) k).
    unfold dispatch at 2; simpl. rewrite decide_False by done.
    by rewrite app_nil_r.
Qed.

Lemma filter_all {A : Type} (P : A → Prop) `{!∀ x, Decision (P x)}
    (l : list A) :
  (∀ x, x ∈ l → P x) → filter P l = l.
Proof.
  induction l as [| x l IH]; intros Hall; [done |].
  rewrite filter_cons, decide_True by (apply Hall; by left).
  rewrite IH; [done |]. intros y Hy. apply Hall. by right.
Qed.

Lemma filter_none {A : Type} (P : A → Prop) `{!∀ x, Decision (P x)}
    (l : list A) :
  (∀ x, x ∈ l → ¬ P x) → filter P l = [].
Proof.
  induction l as [| x l IH]; intros Hall; [done |].
  rewrite filter_cons, decide_False by (apply Hall; by left).
  apply IH. intros y Hy. apply Hall. by right.
Qed.

Lemma run_actions_listeners
    (acts : list (action Selector Handler EventName UserAction)) w :
  el_listeners (foldl (λ w' a, run_action a w') w acts)
  = filter (λ l, l ∉ entries acts) (el_listeners w).
Proof.
  revert w. induction acts as [| a acts IH]; intros w; simpl.
  - symmetry. apply filter_all. intros l _. apply not_elem_of_nil.
  - rewrite IH. destruct a as [n cb | u]; simpl; [| done].
    unfold removeEventListener. rewrite list_filter_filter.
    apply list_filter_iff. intros l. rewrite not_elem_of_cons. tauto.
Qed.

Lemma entries_app (a b : list (action Selector Handler EventName UserAction)) :
  entries (a ++ b) = entries a ++ entries b.
Proof.
  induction a as [| [n cb | u] a IH]; simpl; [done | by rewrite IH | done].
Qed.

Lemma registered_known L0 k0 s w : registered L0 k0 s w → known w.
Proof.
  intros (Hls & HL0 & Hk & Hent) l. rewrite Hls.
  intros [Hl | Hl]%elem_of_app.
  - apply HL0 in Hl. lia.
  - apply Hent in Hl. lia.
Qed.

Lemma register_registered L0 k0 r s w :
  registered L0 k0 s w →
  registered L0 k0 (register r s w).1 (register r s w).2.
Proof.
  intros Hreg. pose proof (registered_known _ _ _ _ Hreg) as Hk.
  destruct Hreg as (Hls & HL0 & Hk0 & Hent).
  destruct r as [n sel h | u]; unfold register.
  - rewrite (delegate_eq n sel h s w Hk). unfold registered. simpl.
    rewrite entries_app. simpl. split_and!.
    + by rewrite Hls, app_assoc.
    + done.
    + lia.
    + intros l [Hl | ->%list_elem_of_singleton]%elem_of_app; simpl.
      * apply Hent in Hl. lia.
      * lia.
  - unfold effect, registered; simpl. rewrite entries_app. simpl.
    rewrite app_nil_r. done.
Qed.

Lemma register_all_registered L0 k0 rs s w :
  registered L0 k0 s w →
  registered L0 k0 (register_all rs s w).1 (register_all rs s w).2.
Proof.
  revert s w. induction rs as [| r rs IH]; intros s w Hreg; simpl; [done |].
  by apply IH, register_registered.
Qed.

Lemma new_registered (host : Host) w :
  known w →
  registered (el_listeners w) (closures w)
    (Scope.new (Action:=action Selector Handler EventName UserAction) host) w.
Proof.
  intros Hk. unfold registered; simpl. rewrite app_nil_r.
  split_and!; [done | apply Hk | done | by intros l ?%elem_of_nil].
Qed.

Lemma register_all_quiet throws rs s w :
  quiet throws rs →
  Forall (λ a, throws_of throws a = false) (Scope._effectStore s) →
  Forall (λ a, throws_of throws a = false)
         (Scope._effectStore (register_all rs s w).1).
Proof.
  revert s w. induction rs as [| r rs IH]; intros s w Hq Hs; simpl; [done |].
  apply IH.
  - intros u Hu. apply Hq. by right.
  - destruct r as [n sel h | u]; simpl.
    + apply Forall_app. split; [done |]. by repeat constructor.
    + apply Forall_app. split; [done |]. repeat constructor. simpl.
      apply Hq. by left.
Qed.

(** X10.  [dispose()] undoes every delegation of the scope: after any run of
    [delegate] and [effect] registrations on a new scope in which no
    registered function throws, [dispose()] returns, the host has exactly
    the listeners it had before the scope was used, and so every event
    reaches the handlers it reached before and no other. *)
Theorem dispose_detaches throws rs (host : Host) w :
  known w → quiet throws rs →
  (dispose throws (register_all rs (Scope.new host) w).1
     (register_all rs (Scope.new host) w).2).1.2 = Scope.Returned ∧
  el_listeners
    (dispose throws (register_all rs (Scope.new host) w).1
       (register_all rs (Scope.new host) w).2).2
  = el_listeners w ∧
  ∀ n target,
    dispatch matches n target
      (dispose throws (register_all rs (Scope.new host) w).1
         (register_all rs (Scope.new host) w).2).2
    = dispatch matches n target w.
Proof.
  intros Hk Hq.
  pose proof (register_all_registered _ _ rs _ _ (new_registered host w Hk))
    as (Hls & HL0 & Hk0 & Hent).
  pose proof (register_all_quiet throws rs (Scope.new host) w Hq
                (Forall_nil_2 _)) as Hok.
  set (s1 := (register_all rs (Scope.new host) w).1) in *.
  set (w1 := (register_all rs (Scope.new host) w).2) in *.
  assert (Hd : Scope.dispose (throws_of throws) s1
               = (Scope.mkScope (Scope.host s1) [], Scope._effectStore s1,
                  Scope.Returned)).
  { unfold Scope.dispose. by rewrite (for_of_returns _ _ Hok). }
  assert (Hfinal : el_listeners (dispose throws s1 w1).2 = el_listeners w).
  { unfold dispose. simpl. rewrite Hd. simpl.
    rewrite run_actions_listeners, Hls, filter_app.
    rewrite (filter_all _ (el_listeners w)), filter_none.
    - by rewrite app_nil_r.
    - by intros l Hl Hnl.
    - intros l Hl Hin. apply HL0 in Hl. apply Hent in Hin. lia. }
  split_and!.
  - unfold dispose. simpl. by rewrite Hd.
  - done.
  - intros n target. unfold dispatch. by rewrite Hfinal.
Qed.
Lemma register_all_app rs rs' s w :
  register_all (rs ++ rs') s w
  = register_all rs' (register_all rs s w).1 (register_all rs s w).2.
Proof.
  revert s w. induction rs as [| r rs IH]; intros s w; simpl; [done |].
  apply IH.
Qed.

Lemma register_all_extends rs s w :
  ∃ more, Scope._effectStore (register_all rs s w).1
          = Scope._effectStore s ++ more.
Proof.
  revert s w. induction rs as [| r rs IH]; intros s w; simpl.
  - exists []. by rewrite app_nil_r.
  - destruct (IH (register r s w).1 (register r s w).2) as [more ->].
    destruct r as [n sel h | u]; simpl; eexists; by rewrite <- app_assoc.
Qed.

Lemma dispatch_elem (n : EventName) (t : Target)
    (cb : callback Selector Handler) w :
  (n, cb) ∈ el_listeners w → matches t (selector cb) = true →
  (eventHandler cb, t) ∈ dispatch matches n (Some t) w.
Proof.
  intros Hin Hm. unfold dispatch.
  induction (el_listeners w) as [| l ls IH]; [by apply elem_of_nil in Hin |].
  simpl. apply elem_of_app. apply elem_of_cons in Hin as [<- | Hin].
  - left. simpl. rewrite decide_True by done. rewrite Hm. by left.
  - right. by apply IH.
Qed.

Lemma register_tail (u : UserAction) (n : EventName) (sel : Selector)
    (h : Handler) rs s w :
  register_all (Effect u :: Delegate n sel h :: rs) s w
  = register_all rs (delegate n sel h (Scope.effect (User u) s) w).1
      (delegate n sel h (Scope.effect (User u) s) w).2.
Proof. reflexivity. Qed.

(** X11.  A delegation registered after an effect that throws is never undone:
    [dispose()] ends by the exception before it reaches the function that
    removes the listener, so the handler still runs for matching events
    after [dispose()]; the scope keeps its list as it was, so that every
    further [dispose()] ends the same way. *)
Theorem delegation_survives_throw throws pre post (u : UserAction)
    (n : EventName) (sel : Selector) (h : Handler) (t : Target)
    (host : Host) w :
  known w → quiet throws pre → throws u = true → matches t sel = true →
  (dispose throws
     (register_all (pre ++ Effect u :: Delegate n sel h :: post)
        (Scope.new host) w).1
     (register_all (pre ++ Effect u :: Delegate n sel h :: post)
        (Scope.new host) w).2).1.2 = Scope.Thrown ∧
  (dispose throws
     (register_all (pre ++ Effect u :: Delegate n sel h :: post)
        (Scope.new host) w).1
     (register_all (pre ++ Effect u :: Delegate n sel h :: post)
        (Scope.new host) w).2).1.1.1
  = (register_all (pre ++ Effect u :: Delegate n sel h :: post)
       (Scope.new host) w).1 ∧
  (h, t) ∈ dispatch matches n (Some t)
             (dispose throws
                (register_all (pre ++ Effect u :: Delegate n sel h :: post)
                   (Scope.new host) w).1
                (register_all (pre ++ Effect u :: Delegate n sel h :: post)
                   (Scope.new host) w).2).2.
Proof.
  intros Hk Hq Hu Hm.
  pose proof (register_all_registered _ _ pre _ _ (new_registered host w Hk))
    as Hreg1.
  pose proof (register_all_quiet throws pre (Scope.new host) w Hq
                (Forall_nil_2 _)) as Hok.
  pose proof (register_all_registered _ _
                (pre ++ Effect u :: Delegate n sel h :: post) _ _
                (new_registered host w Hk)) as (Hls & _ & _ & _).
  rewrite register_all_app, register_tail in *.
  set (s1 := (register_all pre (Scope.new host) w).1) in *.
  set (w1 := (register_all pre (Scope.new host) w).2) in *.
  pose proof (registered_known _ _ _ _ Hreg1) as Hk1.
  destruct Hreg1 as (_ & _ & _ & Hent1).
  rewrite (delegate_eq n sel h _ w1 Hk1) in *. simpl in *.
  set (cb := Computed (closures w1) sel h) in *.
  destruct (register_all_extends post
              (Scope.mkScope (Scope.host s1)
                 ((Scope._effectStore s1 ++ [User u]) ++ [Detach n cb]))
              (World (el_listeners w1 ++ [(n, cb)]) (S (closures w1))))
    as [more Hstore].
  simpl in Hstore.
  set (s4 := (register_all post _ _).1) in *.
  set (w4 := (register_all post _ _).2) in *.
  assert (Hd : Scope.dispose (throws_of throws) s4
               = (s4, Scope._effectStore s1 ++ [User u], Scope.Thrown)).
  { unfold Scope.dispose. rewrite Hstore, <- !app_assoc.
    rewrite (for_of_app _ _ _ Hok). simpl. by rewrite Hu. }
  unfold dispose. rewrite Hd. simpl. split_and!; [done | done |].
  apply (dispatch_elem n t cb); [| done].
  rewrite run_actions_listeners. apply list_elem_of_filter. split.
  - rewrite entries_app. simpl. rewrite app_nil_r.
    intros Hin. apply Hent1 in Hin. simpl in Hin. lia.
  - rewrite Hls, Hstore, !entries_app. simpl.
    apply elem_of_app. right. apply elem_of_app. left.
    apply elem_of_app. right. by left.
Qed.
End DelegationFacts.

(** A click handler delegated for the selector 1 on a host without
    listeners; the target 1 matches the selector 1. *)
Lemma delegate_filters_witness :
  Delegation.dispatch (λ t sel : nat, bool_decide (t = sel)) 0%nat (Some 1%nat)
    (Delegation.delegate 0%nat 1%nat 5%nat
       (Scope.new (Action:=Delegation.action nat nat nat nat) tt)
       (Delegation.World [] 0%nat)).2
  = [(5%nat, 1%nat)].
Proof.
  destruct (delegate_filters (λ t sel : nat, bool_decide (t = sel))
              0%nat 1%nat 5%nat (Some 1%nat)
              (Scope.new (Action:=Delegation.action nat nat nat nat) tt)
              (Delegation.World [] 0%nat)) as (_ & Hd & _).
  - by intros l ?%elem_of_nil.
  - by rewrite Hd.
Defined.

(** Two delegations and an effect, then [dispose()]. *)
Lemma dispose_detaches_witness :
  Delegation.el_listeners
    (Delegation.dispose (λ _ : nat, false)
       (Delegation.register_all
          [Delegation.Delegate 0%nat 1%nat 5%nat; Delegation.Effect 9%nat;
           Delegation.Delegate 0%nat 2%nat 6%nat]
          (Scope.new tt) (Delegation.World [] 0%nat)).1
       (Delegation.register_all
          [Delegation.Delegate 0%nat 1%nat 5%nat; Delegation.Effect 9%nat;
           Delegation.Delegate 0%nat 2%nat 6%nat]
          (Scope.new tt) (Delegation.World [] 0%nat)).2).2
  = [].
Proof.
  destruct (dispose_detaches (Target:=nat)
              (λ t sel : nat, bool_decide (t = sel)) (λ _ : nat, false)
              [Delegation.Delegate 0%nat 1%nat 5%nat; Delegation.Effect 9%nat;
               Delegation.Delegate 0%nat 2%nat 6%nat]
              tt (Delegation.World [] 0%nat)) as (_ & Hl & _).
  - by intros l ?%elem_of_nil.
  - by intros u _.
  - exact Hl.
Defined.

(** An effect that throws registered before a delegation. *)
Lemma delegation_survives_throw_witness :
  (5%nat, 1%nat)
  ∈ Delegation.dispatch (λ t sel : nat, bool_decide (t = sel)) 0%nat
      (Some 1%nat)
      (Delegation.dispose (λ _ : nat, true)
         (Delegation.register_all
            [Delegation.Effect 9%nat; Delegation.Delegate 0%nat 1%nat 5%nat]
            (Scope.new tt) (Delegation.World [] 0%nat)).1
         (Delegation.register_all
            [Delegation.Effect 9%nat; Delegation.Delegate 0%nat 1%nat 5%nat]
            (Scope.new tt) (Delegation.World [] 0%nat)).2).2.
Proof.
  apply (delegation_survives_throw (λ t sel : nat, bool_decide (t = sel))
           (λ _ : nat, true) [] [] 9%nat 0%nat 1%nat 5%nat 1%nat tt
           (Delegation.World [] 0%nat)).
  - by intros l ?%elem_of_nil.
  - by intros u ?%elem_of_nil.
  - reflexivity.
  - reflexivity.
Defined.

(** Actions 0 and 1, of which none and then action 1 throws. *)
Lemma scope_dispose_completion_witness :
  (Scope.dispose (λ _ : nat, false) (Scope.mkScope tt [0%nat; 1%nat])).1.2
  = [0%nat; 1%nat] ∧
  (Scope.dispose (λ a : nat, bool_decide (a = 1%nat))
     (Scope.mkScope tt [0%nat; 1%nat; 2%nat])).1.1
  = Scope.mkScope tt [0%nat; 1%nat; 2%nat].
Proof.
  destruct (scope_dispose_completion (λ _ : nat, false)
              (Scope.mkScope tt [0%nat; 1%nat])) as (_ & _ & Hret & _).
  destruct (scope_dispose_completion (λ a : nat, bool_decide (a = 1%nat))
              (Scope.mkScope tt [0%nat; 1%nat; 2%nat])) as (_ & _ & _ & Hthr).
  split.
  - by apply Hret.
  - by apply Hthr.
Defined.

(** A scope with action 0, disposed, then given actions 1 and 2. *)
Lemma scope_reuse_witness :
  Scope.dispose (λ _ : nat, false)
    (foldl (λ s' a, Scope.effect a s')
       (Scope.dispose (λ _ : nat, false) (Scope.mkScope tt [0%nat])).1.1
       [1%nat; 2%nat])
  = (Scope.mkScope tt [], [1%nat; 2%nat], Scope.Returned).
Proof.
  apply (scope_reuse (λ _ : nat, false) (Scope.mkScope tt [0%nat])
           [1%nat; 2%nat] tt); by repeat constructor.
Defined.

(* ===================================================================== *)
(** ** SignalList: what the operations write                              *)
(* ===================================================================== *)

Section ListFrame.
Import SignalList.
Context {T W : Type} `{EqDecision T, EqDecision W}.
Implicit Types (σ : config T W) (l : loc) (v : list T).

Lemma framed_intro σ σ' (cs : list (call T W)) (old : loc) (nv ov : list T) :
  wf σ' →
  (∀ l, l ∈ dom (heap σ) → l ∈ dom (heap σ')) →
  (data (this σ') = data (this σ) ∨ data (this σ') ∉ dom (heap σ)) →
  (_frozenValue (this σ') = _frozenValue (this σ) ∨
   _frozenValue (this σ') ∉ dom (heap σ)) →
  (∀ l, l ∈ dom (heap σ) → l ≠ data (this σ) →
        heap σ' !!! l = heap σ !!! l) →
  log σ' = log σ ++ cs →
  (cs = [] ∨
   cs = dispatch (watchers (this σ)) (data (this σ')) old nv ov) →
  old ∈ dom (heap σ') → old ≠ data (this σ') → heap σ' !!! old = ov →
  framed σ σ'.
Proof.
  intros Hwf Hdom Hdata Hfv Hframe Hlog Hcs Hold1 Hold2 Hold3.
  split_and!; try done. exists cs. split; [done |].
  destruct Hcs as [-> | ->]; [by intros c ?%elem_of_nil |].
  by intros c (w & -> & Hw)%list_elem_of_fmap.
Qed.

Lemma framed_refl σ : wf σ → framed σ σ.
Proof.
  intros Hwf. split_and!; try done; [by left | by left |].
  exists []. rewrite app_nil_r. split; [done | by intros c ?%elem_of_nil].
Qed.

Section Shapes.
Variables (d : loc) (ws : list W) (fr : bool) (fv : loc)
          (h : gmap loc (list T)) (lg : list (call T W)).
Hypotheses (Hd : d ∈ dom h) (Hf : fv ∈ dom h) (Hne : d ≠ fv)
           (Hnd : NoDup ws).

Abbreviation σ0 := (Config (mkList d ws fr fv) h lg).
Abbreviation l1 := (fresh (dom h)).
Abbreviation l2 := (fresh (dom (<[l1 := h !!! d]> h))).

Lemma framed_in_place (nv : list T) (cs : list (call T W)) :
  (cs = [] ∨ cs = dispatch ws d l1 nv (h !!! d)) →
  framed σ0 (Config (mkList d ws fr fv)
               (<[d := nv]> (<[l1 := h !!! d]> h)) (lg ++ cs)).
Proof.
  intros Hcs. apply (framed_intro _ _ cs l1 nv (h !!! d)); simpl;
    try done.
  - split_and!; simpl; try done; dom_solver.
  - intros l Hl. dom_solver.
  - by left.
  - by left.
  - intros l Hl Hld. rewrite lookup_total_insert_ne by done.
    rewrite lookup_total_insert_ne; [done |]. by apply fresh_ne_l.
  - dom_solver.
  - ne_solver.
  - by hsimpl.
Qed.

Lemma framed_replaced (nv : list T) (cs : list (call T W)) :
  (cs = [] ∨ cs = dispatch ws l2 l1 nv (h !!! d)) →
  framed σ0 (Config (mkList l2 ws fr fv)
               (<[l2 := nv]> (<[l1 := h !!! d]> h)) (lg ++ cs)).
Proof.
  intros Hcs. apply (framed_intro _ _ cs l1 nv (h !!! d)); simpl;
    try done.
  - split_and!; simpl; try done; try dom_solver. ne_solver.
  - intros l Hl. dom_solver.
  - right. intros Hin. apply (is_fresh (dom (<[l1 := h !!! d]> h))).
    by apply dom_insert_subseteq.
  - by left.
  - intros l Hl Hld. rewrite lookup_total_insert_ne.
    + rewrite lookup_total_insert_ne; [done |]. by apply fresh_ne_l.
    + apply fresh_ne_l. dom_solver.
  - dom_solver.
  - apply fresh_ne_r. dom_solver.
  - rewrite lookup_total_insert_ne; [by hsimpl |]. apply fresh_ne_l.
    dom_solver.
Qed.

Lemma framed_untouched (kept : list T) :
  framed σ0 (Config (mkList d ws fr fv)
               (<[l2 := kept]> (<[l1 := h !!! d]> h)) lg).
Proof.
  apply (framed_intro _ _ [] l1 [] (h !!! d)); simpl; try done.
  - split_and!; simpl; try done; dom_solver.
  - intros l Hl. dom_solver.
  - by left.
  - by left.
  - intros l Hl Hld. rewrite lookup_total_insert_ne.
    + rewrite lookup_total_insert_ne; [done |]. by apply fresh_ne_l.
    + apply fresh_ne_l. dom_solver.
  - by rewrite app_nil_r.
  - by left.
  - dom_solver.
  - ne_solver.
  - rewrite lookup_total_insert_ne; [by hsimpl |]. apply fresh_ne_l.
    dom_solver.
Qed.

Lemma framed_set (nv : list T) (cs : list (call T W)) :
  (cs = [] ∨ cs = dispatch ws l1 d nv (h !!! d)) →
  framed σ0 (Config (mkList l1 ws fr fv) (<[l1 := nv]> h) (lg ++ cs)).
Proof.
  intros Hcs. apply (framed_intro _ _ cs d nv (h !!! d)); simpl;
    try done.
  - split_and!; simpl; try done; try dom_solver. ne_solver.
  - intros l Hl. dom_solver.
  - right. apply is_fresh.
  - by left.
  - intros l Hl Hld. rewrite lookup_total_insert_ne; [done |].
    by apply fresh_ne_l.
  - dom_solver.
  - ne_solver.
  - by hsimpl.
Qed.
End Shapes.
Lemma run_framed (m : mutator T) σ : wf σ → framed σ (run m σ).2.
Proof.
  destruct σ as [[d ws fr fv] h lg]. intros (Hd & Hf & Hne & Hnd).
  simpl in *.
  assert (Hquiet : ∀ cs : list (call T W),
            (if fr then [] else cs) = [] ∨ (if fr then [] else cs) = cs).
  { intros cs. destruct fr; [by left | by right]. }
  destruct m; simpl run; unfold mbind, M_bind.
  - rewrite push_eq by done. by apply framed_in_place.
  - rewrite pop_eq by done. destruct (decide _); simpl.
    + by apply framed_refl.
    + by apply framed_in_place.
  - rewrite unshift_eq by done. by apply framed_in_place.
  - rewrite shift_eq by done. destruct (decide _); simpl.
    + by apply framed_refl.
    + by apply framed_in_place.
  - rewrite splice_eq by done. simpl. apply framed_in_place; try done.
    destruct (decide _); [apply Hquiet | by left].
  - rewrite removeByIndex_eq by done. destruct (decide _); simpl.
    + by apply framed_refl.
    + by apply framed_in_place.
  - rewrite filterBy_eq by done. simpl. destruct (decide _); simpl.
    + by apply framed_replaced.
    + by apply framed_untouched.
  - rewrite orderBy_eq by done. simpl. apply framed_in_place; try done.
    destruct (arraysShallowEqual _ _); [by left | apply Hquiet].
  - rewrite remove_eq by done. simpl. apply framed_replaced; try done.
    destruct (decide _); [apply Hquiet | by left].
  - rewrite set_value_eq by done. simpl. by apply framed_set.
Qed.

Lemma perform_framed (o : operation T W) σ :
  wf σ →
  framed σ (perform o σ).2 ∧
  (o ≠ Pause → _frozenValue (this (perform o σ).2) = _frozenValue (this σ)) ∧
  (∀ fn, fn ∉ watchers (this σ) → o ≠ Listener fn →
         fn ∉ watchers (this (perform o σ).2)).
Proof.
  intros Hwf. destruct o as [m | | | | fn' | fn' | cb | cb]; simpl.
  - pose proof (run_framed m σ Hwf) as Hfr.
    destruct (run_step m σ Hwf) as (_ & Hws & _ & Hfv & _).
    split_and!; [done | done | by rewrite Hws].
  - destruct σ as [[d ws fr fv] h lg]. destruct Hwf as (Hd & Hf & Hne & Hnd).
    simpl in *. split_and!; [| done | done].
    apply (framed_intro _ _ [] fv [] (h !!! fv)); simpl; try done.
    + split_and!; simpl; try done; try dom_solver. ne_solver.
    + intros l Hl. dom_solver.
    + by left.
    + right. apply is_fresh.
    + intros l Hl Hld. rewrite lookup_total_insert_ne; [done |].
      by apply fresh_ne_l.
    + by rewrite app_nil_r.
    + by left.
    + dom_solver.
    + by hsimpl.
  - destruct σ as [[d ws fr fv] h lg]. destruct Hwf as (Hd & Hf & Hne & Hnd).
    simpl in *. rewrite begin_eq. simpl.
    split_and!; [| done | done].
    apply (framed_intro _ _ (dispatch ws d fv (h !!! d) (h !!! fv))
             fv (h !!! d) (h !!! fv)); simpl; try done.
    + by left.
    + by left.
    + by right.
  - destruct σ as [[d ws fr fv] h lg]. destruct Hwf as (Hd & Hf & Hne & Hnd).
    unfold mbind, M_bind. simpl in *.
    split_and!; [| done | done].
    apply (framed_intro _ _ [] fv [] (h !!! fv)); simpl; try done.
    + split_and!; simpl; try done; dom_solver.
    + intros l Hl. dom_solver.
    + by left.
    + by left.
    + intros l Hl Hld. rewrite lookup_total_insert_ne; [done |].
      by apply fresh_ne_l.
    + by rewrite app_nil_r.
    + by left.
    + dom_solver.
    + by hsimpl.
  - pose proof (listener_wf fn' σ Hwf) as Hwf'.
    destruct σ as [[d ws fr fv] h lg]. destruct Hwf as (Hd & Hf & Hne & Hnd).
    simpl in *. split_and!; [| done |].
    + apply (framed_intro _ _ [] fv [] (h !!! fv)); simpl; try done.
      * by left.
      * by left.
      * by rewrite app_nil_r.
      * by left.
    + intros fn Hfn Hne'. destruct (decide (fn' ∈ ws)); [done |].
      intros [Hin | ->%list_elem_of_singleton]%elem_of_app; [done |].
      by apply Hne'.
  - pose proof (stop_wf fn' σ Hwf) as Hwf'.
    destruct σ as [[d ws fr fv] h lg]. destruct Hwf as (Hd & Hf & Hne & Hnd).
    simpl in *. split_and!; [| done |].
    + apply (framed_intro _ _ [] fv [] (h !!! fv)); simpl; try done.
      * by left.
      * by left.
      * by rewrite app_nil_r.
      * by left.
    + intros fn Hfn _ [_ Hin]%list_elem_of_filter. done.
  - unfold mbind, M_bind. simpl. split_and!; [by apply framed_refl | done | done].
  - unfold mbind, M_bind. simpl. split_and!; [by apply framed_refl | done | done].
Qed.

(** A run of operations: the invariant holds afterwards, every array that
    existed and is not the data array holds what it held, the log only
    grows, and the data array afterwards is the one before or a new one. *)
Lemma perform_all_framed (os : list (operation T W)) σ :
  wf σ →
  wf (perform_all os σ).2 ∧
  (∀ l, l ∈ dom (heap σ) → l ∈ dom (heap (perform_all os σ).2)) ∧
  (data (this (perform_all os σ).2) = data (this σ) ∨
   data (this (perform_all os σ).2) ∉ dom (heap σ)) ∧
  (∀ l, l ∈ dom (heap σ) → l ≠ data (this σ) →
        heap (perform_all os σ).2 !!! l = heap σ !!! l) ∧
  (Forall (λ o, o ≠ Pause) os →
   _frozenValue (this (perform_all os σ).2) = _frozenValue (this σ)) ∧
  (∀ fn, fn ∉ watchers (this σ) → Forall (λ o, o ≠ Listener fn) os →
         (fn ∉ watchers (this (perform_all os σ).2)) ∧
         calls_to fn (log (perform_all os σ).2) = calls_to fn (log σ)).
Proof.
  revert σ. induction os as [| o os IH]; intros σ Hwf; simpl.
  - split_and!; try done; by left.
  - unfold mbind, M_bind. destruct (perform o σ) as [[] σ1] eqn:Hstep.
    destruct (perform_framed o σ Hwf) as (Hfr & Hfv & Hws).
    rewrite Hstep in *. simpl in *.
    destruct Hfr as (Hwf1 & Hdom & Hdata & _ & Hframe & calls & Hlog & Hcalls).
    destruct (IH σ1 Hwf1) as (Hwf' & Hdom' & Hdata' & Hframe' & Hfv' & Hws').
    split_and!.
    + done.
    + intros l Hl. by apply Hdom', Hdom.
    + destruct Hdata' as [-> | Hnew]; [done |].
      right. intros Hin. by apply Hnew, Hdom.
    + intros l Hl Hld. rewrite Hframe'.
      * by apply Hframe.
      * by apply Hdom.
      * destruct Hdata as [Hsame | Hnew]; [by rewrite Hsame |].
        intros Heq. apply Hnew. by rewrite <- Heq.
    + intros [Ho Hos]%Forall_cons. rewrite Hfv' by done. by apply Hfv.
    + intros fn Hfn [Ho Hos]%Forall_cons.
      destruct (Hws' fn) as [Hnot Hcalls']; [by apply Hws | done |].
      split; [done |]. rewrite Hcalls', Hlog. unfold calls_to.
      rewrite filter_app, (filter_none _ calls); [by rewrite app_nil_r |].
      intros c Hc Hw. apply Hcalls in Hc as [Hin _]. congruence.
Qed.
End ListFrame.

(* ===================================================================== *)
(** ** SignalList: runs of operations                                     *)
(* ===================================================================== *)

Section ListRuns.
Import SignalList.
Context {T W : Type} `{EqDecision T, EqDecision W}.
Implicit Types (σ : config T W) (l : loc) (v : list T)
               (os : list (operation T W)).

(** X12.  The constructor copies: the collection holds the elements of the array
    it is given in a new array, with no watcher, unfrozen, with an empty
    baseline, and leaves the caller's array as it is; what the caller
    writes into that array afterwards does not reach the collection.
    Without an argument the collection is empty. *)
Theorem list_constructor_copies (a : loc) (h : gmap loc (list T))
    (u : list T) :
  a ∈ dom h →
  wf (Jinjx.signalList (W:=W) a h) ∧
  contents (Jinjx.signalList (W:=W) a h) = h !!! a ∧
  heap (Jinjx.signalList (W:=W) a h) !!! a = h !!! a ∧
  (data (this (Jinjx.signalList (W:=W) a h)) ∉ dom h) ∧
  watchers (this (Jinjx.signalList (W:=W) a h)) = [] ∧
  _frozen (this (Jinjx.signalList (W:=W) a h)) = false ∧
  heap (Jinjx.signalList (W:=W) a h)
    !!! _frozenValue (this (Jinjx.signalList (W:=W) a h)) = [] ∧
  contents (external_write a u (Jinjx.signalList (W:=W) a h)).2 = h !!! a ∧
  contents (new (T:=T) (W:=W) None h) = [].
Proof.
  intros Ha. unfold Jinjx.signalList. split_and!.
  - apply new_wf.
  - by apply new_contents.
  - unfold new; simpl. by hsimpl.
  - unfold new; simpl. intros Hin.
    apply (is_fresh (dom (<[fresh (dom h) := []]> h))).
    by apply dom_insert_subseteq.
  - done.
  - done.
  - unfold new; simpl. rewrite lookup_total_insert_ne.
    + by rewrite lookup_total_insert_eq.
    + apply fresh_ne_l. dom_solver.
  - unfold contents, external_write, store, new; simpl.
    rewrite lookup_total_insert_ne.
    + by hsimpl.
    + apply fresh_ne_r. dom_solver.
  - unfold contents, new; simpl. by rewrite lookup_total_insert_eq.
Qed.

(** X13.  In every configuration that public calls make from a new collection,
    the data and baseline fields refer to two distinct arrays that exist
    and the watchers are a set; writes by code outside the class keep
    that. *)
Theorem list_invariant_reachable (initial : option loc)
    (h : gmap loc (list T)) os (l : loc) (u : list T) :
  wf (perform_all os (new initial h)).2 ∧
  wf (external_write l u (perform_all os (new initial h)).2).2.
Proof.
  destruct (perform_all_framed os (new initial h) (new_wf initial h))
    as (Hwf & _).
  split; [done | by apply external_write_wf].
Qed.

(** X14.  The array that [.value] returns is a snapshot: whatever is called on
    the collection afterwards, it holds the sequence as it was at the
    read. *)
Theorem list_value_snapshot os σ :
  wf σ →
  heap (perform_all os (value σ).2).2 !!! (value σ).1 = contents σ.
Proof.
  intros Hwf. pose proof (value_wf σ Hwf) as Hwf1.
  destruct (perform_all_framed os (value σ).2 Hwf1)
    as (_ & _ & _ & Hframe & _).
  destruct σ as [[d ws fr fv] h lg]. destruct Hwf as (Hd & Hf & Hne & Hnd).
  unfold contents. simpl in *. rewrite Hframe.
  - by hsimpl.
  - dom_solver.
  - ne_solver.
Qed.

(** X15.  The old sequence that a mutator hands to the watchers is a snapshot
    too: it is the sequence as it was before the mutator, and the array
    holds it whatever is called on the collection afterwards. *)
Theorem list_old_sequence_snapshot (m : mutator T) os σ :
  wf σ →
  ∃ calls,
    log (run m σ).2 = log σ ++ calls ∧
    ∀ c, c ∈ calls →
         c_oldval c = contents σ ∧
         heap (run m σ).2 !!! c_old c = contents σ ∧
         heap (perform_all os (run m σ).2).2 !!! c_old c = contents σ.
Proof.
  intros Hwf.
  destruct (run_framed m σ Hwf)
    as (Hwf1 & _ & _ & _ & _ & calls & Hlog & Hcalls).
  destruct (run_step m σ Hwf)
    as (_ & _ & _ & _ & _ & _ & oldVal & _ & _ & Hlog' & _).
  destruct (perform_all_framed os (run m σ).2 Hwf1)
    as (_ & _ & _ & Hframe & _).
  exists calls. split; [done |]. intros c Hc.
  assert (Hval : c_oldval c = contents σ).
  { destruct Hlog' as [Hsame | [_ Hdisp]].
    - rewrite Hlog in Hsame.
      assert (calls = []) as ->
        by (apply (app_inv_head (log σ)); by rewrite app_nil_r).
      by apply elem_of_nil in Hc.
    - rewrite Hlog in Hdisp. apply app_inv_head in Hdisp. subst calls.
      by apply list_elem_of_fmap in Hc as (w & -> & _). }
  destruct (Hcalls c Hc) as (_ & Hdom & Hne & Hheld).
  split_and!; [done | by rewrite Hheld | ].
  rewrite Hframe by done. by rewrite Hheld.
Qed.

Lemma begin_after os σ :
  wf σ → Forall (λ o, o ≠ Pause) os →
  log (begin (perform_all os σ).2).2
  = log (perform_all os σ).2
    ++ dispatch (watchers (this (perform_all os σ).2))
         (data (this (perform_all os σ).2))
         (_frozenValue (this σ))
         (contents (perform_all os σ).2)
         (heap σ !!! _frozenValue (this σ)).
Proof.
  intros Hwf Hos.
  destruct (perform_all_framed os σ Hwf)
    as (_ & _ & _ & Hframe & Hfv & _).
  specialize (Hfv Hos). destruct Hwf as (_ & Hf & Hne & _).
  specialize (Hframe _ Hf (not_eq_sym Hne)).
  destruct (perform_all os σ).2 as [[d ws fr fv] h lg].
  simpl in *. rewrite begin_eq. unfold contents. simpl.
  by rewrite Hfv, Hframe.
Qed.

(** X16.  [begin()] on a collection that was never paused: whatever was called
    since the constructor, every watcher is called once with the current
    sequence and, as old sequence, the empty baseline of the
    constructor. *)
Theorem list_begin_without_pause (initial : option loc)
    (h : gmap loc (list T)) os :
  Forall (λ o, o ≠ Pause) os →
  log (begin (perform_all os (new initial h)).2).2
  = log (perform_all os (new initial h)).2
    ++ dispatch (watchers (this (perform_all os (new initial h)).2))
         (data (this (perform_all os (new initial h)).2))
         (_frozenValue (this (new (T:=T) (W:=W) initial h)))
         (contents (perform_all os (new initial h)).2) [].
Proof.
  intros Hos. rewrite (begin_after os _ (new_wf initial h) Hos).
  do 2 f_equal. unfold new; simpl. rewrite lookup_total_insert_ne.
  - by rewrite lookup_total_insert_eq.
  - apply fresh_ne_l. dom_solver.
Qed.

(** X17.  [begin()] does not renew the baseline: after a [pause()], every
    [begin()] reports as old sequence the sequence at that [pause()], also
    a second [begin()] and whatever else was called in between, until the
    next [pause()]. *)
Theorem list_begin_keeps_baseline os σ :
  wf σ → Forall (λ o, o ≠ Pause) os →
  log (begin (perform_all os (pause σ).2).2).2
  = log (perform_all os (pause σ).2).2
    ++ dispatch (watchers (this (perform_all os (pause σ).2).2))
         (data (this (perform_all os (pause σ).2).2))
         (_frozenValue (this (pause σ).2))
         (contents (perform_all os (pause σ).2).2)
         (contents σ).
Proof.
  intros Hwf Hos. rewrite (begin_after os _ (pause_wf σ Hwf) Hos).
  do 2 f_equal. destruct σ as [[d ws fr fv] h lg]. unfold contents. simpl.
  by rewrite lookup_total_insert_eq.
Qed.

(** X18.  A watcher removed with [stop] is not called again: whatever is called
    on the collection afterwards, short of registering it again, the calls
    to it are those made before. *)
Theorem list_stop_silences (fn : W) os σ :
  wf σ → Forall (λ o, o ≠ Listener fn) os →
  calls_to fn (log (perform_all os (stop fn σ).2).2) = calls_to fn (log σ).
Proof.
  intros Hwf Hos.
  destruct (perform_all_framed os (stop fn σ).2 (stop_wf fn σ Hwf))
    as (_ & _ & _ & _ & _ & Hws).
  destruct (Hws fn) as [_ Hcalls]; [| done | done].
  simpl. intros [Hne _]%list_elem_of_filter. done.
Qed.

(** X19.  The watchers are a set: registering a watcher twice is registering it
    once, and a notification then calls it exactly once. *)
Theorem list_listener_once (fn : W) σ :
  wf σ →
  (listener fn (listener fn σ).2).2 = (listener fn σ).2 ∧
  ∃ c, calls_to fn (drop (length (log σ))
                      (log (begin (listener fn σ).2).2)) = [c].
Proof.
  intros Hwf. pose proof (listener_wf fn σ Hwf) as Hwf1.
  destruct σ as [[d ws fr fv] h lg]. destruct Hwf1 as (_ & _ & _ & Hnd).
  simpl in *. split.
  - unfold listener, get, set_watchers, put, mbind, M_bind; simpl.
    do 2 f_equal. destruct (decide (fn ∈ ws)) as [Hin | Hnin].
    + by rewrite decide_True.
    + rewrite decide_True; [done |]. apply elem_of_app. right. by left.
  - unfold listener, get, set_watchers, put, mbind, M_bind; simpl.
    rewrite begin_eq. simpl. rewrite drop_app_length.
    set (ws' := if decide (fn ∈ ws) then ws else ws ++ [fn]) in *.
    assert (Hin : fn ∈ ws').
    { unfold ws'. destruct (decide (fn ∈ ws)); [done |].
      apply elem_of_app. right. by left. }
    unfold calls_to, dispatch. clearbody ws'. revert Hin.
    induction Hnd as [| x l Hx Hnd IH]; [by intros ?%elem_of_nil |].
    intros Hin. rewrite fmap_cons, filter_cons. simpl.
    destruct (decide (x = fn)) as [-> | Hne].
    + eexists. f_equal. apply filter_none.
      intros c (w & -> & Hw)%list_elem_of_fmap. simpl. by intros ->.
    + apply IH. apply elem_of_cons in Hin as [-> | Hin]; done.
Qed.

(** X20.  Setter and getter round-trip: after [.value = a] the getter returns a
    new array with the elements that [a] held, frozen or not, and what is
    written into [a] afterwards does not change the collection. *)
Theorem list_set_get (a : loc) (u : list T) σ :
  wf σ → a ∈ dom (heap σ) →
  heap (value (set_value a σ).2).2 !!! (value (set_value a σ).2).1
  = heap σ !!! a ∧
  (value (set_value a σ).2).1 ≠ a ∧
  (value (set_value a σ).2).1 ≠ data (this (set_value a σ).2) ∧
  contents (external_write a u (set_value a σ).2).2 = heap σ !!! a.
Proof.
  destruct σ as [[d ws fr fv] h lg]. intros (Hd & Hf & Hne & Hnd) Ha.
  simpl in *. rewrite set_value_eq by done.
  unfold contents, external_write, store. simpl. hsimpl.
  split_and!; [done | | | ].
  - apply fresh_ne_l. dom_solver.
  - apply fresh_ne_l. dom_solver.
  - done.
Qed.
End ListRuns.

(* ===================================================================== *)
(** ** SignalList: the methods one by one                                 *)
(* ===================================================================== *)

Section ArrayMore.
Import SignalList.
Context {T : Type} `{EqDecision T}.
Implicit Types (v arr : list T) (cb : T → nat → list T → bool).

Lemma filter_from_sublist cb arr i v : filter_from cb arr i v `sublist_of` v.
Proof.
  revert i. induction v as [| x v IH]; intros i; simpl; [done |].
  destruct (cb x i arr).
  - by apply sublist_skip.
  - by apply sublist_cons.
Qed.

Lemma filter_from_ext cb cb' arr arr' i v :
  (∀ x j, cb x j arr = cb' x j arr') →
  filter_from cb arr i v = filter_from cb' arr' i v.
Proof.
  intros Hext. revert i. induction v as [| x v IH]; intros i; simpl; [done |].
  by rewrite Hext, IH.
Qed.

Lemma filter_from_partition cb arr i v :
  filter_from cb arr i v
    ++ filter_from (λ x j a, negb (cb x j a)) arr i v ≡ₚ v.
Proof.
  revert i. induction v as [| x v IH]; intros i; simpl; [done |].
  destruct (cb x i arr); simpl.
  - by rewrite IH.
  - by rewrite <- Permutation_middle, IH.
Qed.

(** Under [NoDup] an item is found among the kept ones exactly when the
    callback held at its own index. *)
Lemma filter_not_included cb v (pre l : list T) :
  NoDup v → v = pre ++ l →
  filter (λ item, ¬ includes (filter_list cb v) item) l
  = filter_from (λ x j a, negb (cb x j a)) v (length pre) l.
Proof.
  intros Hnd. revert pre. induction l as [| x l IH]; intros pre Hv; [done |].
  assert (Hx : v !! length pre = Some x).
  { rewrite Hv, lookup_app_r by lia. by rewrite Nat.sub_diag. }
  assert (Hin : x ∈ filter_list cb v ↔ cb x (length pre) v = true).
  { unfold filter_list. rewrite filter_from_lookup. split.
    - intros (j & Hj & Hcb). simpl in Hcb.
      by rewrite (NoDup_lookup v (length pre) j x Hnd Hx Hj).
    - intros Hcb. by exists (length pre). }
  rewrite filter_cons. simpl.
  specialize (IH (pre ++ [x])). rewrite length_app, Nat.add_1_r in IH.
  rewrite <- IH by (by rewrite <- app_assoc).
  unfold includes in *.
  destruct (cb x (length pre) v) eqn:Hcb; simpl.
  - rewrite decide_False; [done |].
    intros Hn. apply Hn. apply Is_true_true, bool_decide_eq_true.
    by apply Hin.
  - rewrite decide_True; [done |].
    intros Hn%Is_true_true%bool_decide_eq_true. apply Hin in Hn. done.
Qed.



Lemma splice_segment v (start deleteCount : Z) (xs : list T) :
  v = take (actual_start (length v) start) v
        ++ splice_removed v start deleteCount
        ++ drop (actual_start (length v) start
                 + actual_delete_count (length v) start deleteCount) v.
Proof.
  unfold splice_removed.
  rewrite <- drop_drop, take_drop. by rewrite take_drop.
Qed.

Lemma actual_start_le (len : nat) (start : Z) :
  (actual_start len start ≤ len)%nat.
Proof. unfold actual_start. case_decide; lia. Qed.

Lemma splice_removed_length v (start deleteCount : Z) :
  length (splice_removed v start deleteCount)
  = actual_delete_count (length v) start deleteCount.
Proof.
  unfold splice_removed. rewrite length_take, length_drop.
  unfold actual_delete_count. lia.
Qed.
End ArrayMore.

Section ListMethods.
Import SignalList.
Context {T W : Type} `{EqDecision T, EqDecision W}.
Implicit Types (σ : config T W) (l : loc) (v : list T)
               (cb : T → nat → list T → bool).

(** X21.  [splice(start, deleteCount?, ...items)] replaces one segment: the
    sequence is [pre ++ removed ++ post] before and [pre ++ items ++ post]
    after, where [removed] is what the call returns; [pre] has [start]
    elements, counted from the end when [start] is negative and clamped
    to the sequence; [removed] has [deleteCount] elements, clamped to
    what follows [pre], and none when the count is left out.  The array
    stays the same array.  On an unfrozen collection every watcher is
    called once when something was removed or inserted, and none is
    called otherwise. *)
Theorem list_splice_segment (start : Z) (deleteCount : option Z)
    (items : list T) σ :
  wf σ → _frozen (this σ) = false →
  ∃ pre post : list T,
    contents σ = pre ++ (splice start deleteCount items σ).1 ++ post ∧
    contents (splice start deleteCount items σ).2 = pre ++ items ++ post ∧
    this (splice start deleteCount items σ).2 = this σ ∧
    Z.of_nat (length pre)
    = (if decide (start < 0)
       then Z.max (Z.of_nat (length (contents σ)) + start) 0
       else Z.min start (Z.of_nat (length (contents σ)))) ∧
    Z.of_nat (length (splice start deleteCount items σ).1)
    = Z.min (Z.max (default 0 deleteCount) 0)
            (Z.of_nat (length (contents σ)) - Z.of_nat (length pre)) ∧
    (deleteCount = None → (splice start deleteCount items σ).1 = []) ∧
    ((splice start deleteCount items σ).1 ≠ [] ∨ items ≠ [] →
     ∃ oldVal, (oldVal ∉ dom (heap σ)) ∧
       log (splice start deleteCount items σ).2
       = log σ ++ dispatch (watchers (this σ)) (data (this σ)) oldVal
                    (pre ++ items ++ post) (contents σ)) ∧
    ((splice start deleteCount items σ).1 = [] → items = [] →
     log (splice start deleteCount items σ).2 = log σ ∧
     contents (splice start deleteCount items σ).2 = contents σ).
Proof.
  destruct σ as [[d ws fr fv] h lg]. intros (Hd & Hf & Hne & Hnd) Hfr.
  unfold contents in *. simpl in *. subst fr.
  rewrite splice_eq by done. simpl. hsimpl.
  set (v := h !!! d). set (dc := default 0 deleteCount).
  pose proof (actual_start_le (length v) start) as Hle.
  pose proof (splice_removed_length v start dc) as Hlen.
  assert (Hpre : length (take (actual_start (length v) start) v)
                 = actual_start (length v) start).
  { rewrite length_take. lia. }
  exists (take (actual_start (length v) start) v),
    (drop (actual_start (length v) start
           + actual_delete_count (length v) start dc) v).
  split_and!.
  - by apply splice_segment.
  - done.
  - done.
  - rewrite Hpre. unfold actual_start. case_decide; lia.
  - rewrite Hlen, Hpre. unfold actual_delete_count. lia.
  - intros ->. apply nil_length_inv. rewrite Hlen.
    unfold actual_delete_count, dc. simpl. lia.
  - intros Hsome. exists (fresh (dom h)). split; [apply is_fresh |].
    rewrite decide_True; [done |].
    destruct Hsome as [Hr | Hi].
    + left. destruct (splice_removed v start dc); [done | simpl; lia].
    + right. destruct items; [done | simpl; lia].
  - intros Hr ->. rewrite Hr. rewrite decide_False by (simpl; lia).
    split; [by rewrite app_nil_r |].
    unfold splice_list. fold dc.
    symmetry. etrans; [apply (splice_segment v start dc []) |]. by rewrite Hr.
Qed.

(** X22.  [remove(callback)] splits the sequence in two: the call returns the
    items on which [callback(item, index, oldVal)] holds and the
    collection keeps the others, both in their previous order, so that
    together they are a rearrangement of the previous sequence.  The
    collection moves to a new array.  On an unfrozen collection the
    watchers are called once when an item was removed; when none was, no
    watcher is called and the sequence is as before. *)
Theorem list_remove_partition cb σ :
  wf σ → _frozen (this σ) = false →
  (∀ x, x ∈ (remove cb σ).1 ↔
        ∃ j : nat, contents σ !! j = Some x ∧ cb x j (contents σ) = true) ∧
  (∀ x, x ∈ contents (remove cb σ).2 ↔
        ∃ j : nat, contents σ !! j = Some x ∧ cb x j (contents σ) = false) ∧
  (remove cb σ).1 ++ contents (remove cb σ).2 ≡ₚ contents σ ∧
  (remove cb σ).1 `sublist_of` contents σ ∧
  contents (remove cb σ).2 `sublist_of` contents σ ∧
  (data (this (remove cb σ).2) ∉ dom (heap σ)) ∧
  ((remove cb σ).1 ≠ [] →
   ∃ oldVal, (oldVal ∉ dom (heap σ)) ∧
     oldVal ≠ data (this (remove cb σ).2) ∧
     log (remove cb σ).2
     = log σ ++ dispatch (watchers (this σ)) (data (this (remove cb σ).2))
                  oldVal (contents (remove cb σ).2) (contents σ)) ∧
  ((remove cb σ).1 = [] →
   log (remove cb σ).2 = log σ ∧ contents (remove cb σ).2 = contents σ).
Proof.
  destruct σ as [[d ws fr fv] h lg]. intros (Hd & Hf & Hne & Hnd) Hfr.
  unfold contents in *. simpl in *. subst fr.
  rewrite remove_eq by done. simpl. hsimpl.
  set (v := h !!! d). unfold filter_list.
  pose proof (filter_from_partition (λ item index _, cb item index v)
                v 0 v) as Hperm. simpl in Hperm.
  split_and!.
  - intros x. by rewrite filter_from_lookup.
  - intros x. rewrite filter_from_lookup. simpl.
    split; intros (j & Hj & Hcb); exists j; split; try done.
    + by apply negb_true_iff.
    + by apply negb_true_iff.
  - done.
  - apply filter_from_sublist.
  - apply filter_from_sublist.
  - intros Hin. apply (is_fresh (dom (<[fresh (dom h) := v]> h))).
    by apply dom_insert_subseteq.
  - intros Hsome. exists (fresh (dom h)). split; [apply is_fresh |].
    split.
    + apply not_eq_sym, fresh_ne_l. dom_solver.
    + rewrite decide_True; [done |].
      destruct (filter_from _ v 0 v); [done | simpl; lia].
  - intros Hr. rewrite Hr in *. simpl in *. split.
    + by rewrite app_nil_r.
    + apply filter_from_all. by apply Permutation_length in Hperm.
Qed.

(** X23.  [filterBy(callback)] and [remove] with the negated callback leave the
    same sequence in the collection, always.  They return the same
    removed items when no two items of the sequence are equal. *)
Theorem list_filterBy_agrees_with_remove cb σ :
  wf σ →
  contents (filterBy cb σ).2
  = contents (remove (λ x i a, negb (cb x i a)) σ).2 ∧
  (NoDup (contents σ) →
   (filterBy cb σ).1 = (remove (λ x i a, negb (cb x i a)) σ).1).
Proof.
  destruct σ as [[d ws fr fv] h lg]. intros (Hd & Hf & Hne & Hnd).
  unfold contents in *. simpl in *.
  rewrite remove_eq, filterBy_eq by done. simpl.
  set (v := h !!! d). unfold filter_list.
  assert (Hkept :
    filter_from (λ item index _, negb (negb (cb item index v))) v 0 v
    = filter_from cb v 0 v).
  { apply filter_from_ext. intros x j. by rewrite negb_involutive. }
  split.
  - rewrite Hkept.
    destruct (decide _) as [Hc | Hc]; simpl; hsimpl; [done |].
    fold v. symmetry. apply filter_from_all.
    destruct (decide (length (filter_from cb v 0 v) = length v)); [done |].
    destruct Hc. by right.
  - intros Hnodup.
    rewrite (filter_not_included cb v [] v Hnodup eq_refl). simpl.
    by apply filter_from_ext.
Qed.


(** X25.  [push] then [pop] and [unshift] then [shift] are round trips: the
    item added last at the end comes back from [pop], the item added
    first at the front comes back from [shift], and the sequence keeps
    the other items that were added.  On an unfrozen collection each of
    the two calls notifies every watcher once: the first with the
    sequence that has the items added and a copy of the previous one, the
    second with the sequence that has the item taken off again and a copy
    of the one that had it. *)
Theorem list_push_pop (xs : list T) (x : T) σ :
  wf σ →
  (pop (push (xs ++ [x]) σ).2).1 = Some x ∧
  contents (pop (push (xs ++ [x]) σ).2).2 = contents σ ++ xs ∧
  (shift (unshift (x :: xs) σ).2).1 = Some x ∧
  contents (shift (unshift (x :: xs) σ).2).2 = xs ++ contents σ ∧
  (_frozen (this σ) = false →
   (∃ old1 old2,
      log (push (xs ++ [x]) σ).2
      = log σ ++ dispatch (watchers (this σ)) (data (this σ)) old1
                   (contents σ ++ xs ++ [x]) (contents σ) ∧
      log (pop (push (xs ++ [x]) σ).2).2
      = log (push (xs ++ [x]) σ).2
        ++ dispatch (watchers (this σ)) (data (this σ)) old2
             (contents σ ++ xs) (contents σ ++ xs ++ [x])) ∧
   (∃ old1 old2,
      log (unshift (x :: xs) σ).2
      = log σ ++ dispatch (watchers (this σ)) (data (this σ)) old1
                   (x :: xs ++ contents σ) (contents σ) ∧
      log (shift (unshift (x :: xs) σ).2).2
      = log (unshift (x :: xs) σ).2
        ++ dispatch (watchers (this σ)) (data (this σ)) old2
             (xs ++ contents σ) (x :: xs ++ contents σ))).
Proof.
  destruct σ as [[d ws fr fv] h lg]. intros (Hd & Hf & Hne & Hnd).
  unfold contents in *. simpl in *.
  rewrite push_eq, unshift_eq by done. simpl.
  rewrite pop_eq, shift_eq by dom_solver. hsimpl.
  rewrite !decide_False
    by (rewrite ?length_app; simpl; rewrite ?length_app; simpl; lia).
  simpl. hsimpl.
  rewrite !app_assoc, last_snoc, removelast_last.
  split_and!; try done.
  intros ->. simpl. split; eexists _, _; split; reflexivity.
Qed.

(** X26.  [removeByIndex(index)] at an index of the sequence returns the item
    there and deletes it: the sequence is one shorter, the other items
    keep their order, and on an unfrozen collection every watcher is
    called once. *)
Theorem list_removeByIndex_valid (i : nat) σ :
  wf σ → _frozen (this σ) = false → (i < length (contents σ))%nat →
  (removeByIndex (Z.of_nat i) σ).1 = contents σ !! i ∧
  is_Some (removeByIndex (Z.of_nat i) σ).1 ∧
  contents (removeByIndex (Z.of_nat i) σ).2 = delete i (contents σ) ∧
  S (length (contents (removeByIndex (Z.of_nat i) σ).2))
  = length (contents σ) ∧
  this (removeByIndex (Z.of_nat i) σ).2 = this σ ∧
  ∃ oldVal, (oldVal ∉ dom (heap σ)) ∧
    log (removeByIndex (Z.of_nat i) σ).2
    = log σ ++ dispatch (watchers (this σ)) (data (this σ)) oldVal
                 (delete i (contents σ)) (contents σ).
Proof.
  destruct σ as [[d ws fr fv] h lg]. intros (Hd & Hf & Hne & Hnd) Hfr Hi.
  unfold contents in *. simpl in *. subst fr.
  rewrite removeByIndex_eq by done.
  rewrite decide_False by lia. simpl. hsimpl.
  destruct (splice_one (h !!! d) (Z.of_nat i)) as [Hs Hr]; [lia |].
  rewrite Nat2Z.id in Hs, Hr. rewrite Hs, Hr.
  split_and!; try done.
  - by apply lookup_lt_is_Some_2.
  - pose proof (length_delete (h !!! d) i) as Hl.
    destruct (lookup_lt_is_Some_2 _ _ Hi) as [x Hx].
    rewrite Hl by (by exists x). lia.
  - exists (fresh (dom h)). split; [apply is_fresh | done].
Qed.

(** X27.  Sorting is idempotent: for a consistent comparison function, a
    second [orderBy] with the same function leaves the sequence as the
    first one made it and calls no watcher. *)
Theorem list_orderBy_twice (compareFn : T → T → Z) σ :
  wf σ → consistent compareFn →
  contents (orderBy compareFn (orderBy compareFn σ).2).2
  = contents (orderBy compareFn σ).2 ∧
  log (orderBy compareFn (orderBy compareFn σ).2).2
  = log (orderBy compareFn σ).2.
Proof.
  destruct σ as [[d ws fr fv] h lg]. intros (Hd & Hf & Hne & Hnd) Hc.
  simpl in Hd, Hf, Hne, Hnd. unfold contents.
  rewrite (orderBy_eq d ws fr fv h lg Hd).
  cbn [snd].
  rewrite orderBy_eq by dom_solver. cbn [snd heap log this data]. hsimpl.
  destruct (sort_list_prescribed compareFn (h !!! d) Hc) as (Hs & _ & _).
  rewrite (sort_list_sorted_id _ _ Hs).
  replace (arraysShallowEqual (sort_list compareFn (h !!! d))
             (sort_list compareFn (h !!! d))) with true
    by (symmetry; by apply arraysShallowEqual_true).
  by rewrite app_nil_r.
Qed.
End ListMethods.

(** [signalList(a)] where [a] holds 1, 2, 3, and [a] emptied afterwards. *)
Lemma list_constructor_copies_witness :
  SignalList.contents
    (SignalList.external_write 1%positive []
       (Jinjx.signalList (W:=nat) 1%positive {[1%positive := [1; 2; 3]]})).2
  = [1; 2; 3].
Proof.
  destruct (list_constructor_copies (W:=nat) 1%positive
              {[1%positive := [1; 2; 3]]} [])
    as (_ & _ & _ & _ & _ & _ & _ & Hkept & _).
  - rewrite dom_singleton_L. by apply elem_of_singleton.
  - rewrite Hkept. apply lookup_total_singleton_eq.
Defined.

(** [.value] read on [3, 1, 2], then [push(4)], [pop()] and [orderBy]. *)
Lemma list_value_snapshot_witness :
  SignalList.heap
    (SignalList.perform_all
       [SignalList.Mutate (SignalList.Push [4]);
        SignalList.Mutate SignalList.Pop;
        SignalList.Mutate (SignalList.OrderBy SignalList.ascending)]
       (SignalList.value (SignalList.example [3; 1; 2])).2).2
    !!! (SignalList.value (SignalList.example [3; 1; 2])).1
  = [3; 1; 2].
Proof.
  etrans.
  - apply (list_value_snapshot
             [SignalList.Mutate (SignalList.Push [4]);
              SignalList.Mutate SignalList.Pop;
              SignalList.Mutate (SignalList.OrderBy SignalList.ascending)]
             (SignalList.example [3; 1; 2])).
    apply example_wf.
  - apply example_contents.
Defined.

(** [push(4)] on [1, 2], then [pop()] and [orderBy]. *)
Lemma list_old_sequence_snapshot_witness :
  ∃ calls,
    SignalList.log
      (SignalList.run (SignalList.Push [4]) (SignalList.example [1; 2])).2
    = calls ∧
    ∀ c, c ∈ calls →
      SignalList.heap
        (SignalList.perform_all
           [SignalList.Mutate SignalList.Pop;
            SignalList.Mutate (SignalList.OrderBy SignalList.ascending)]
           (SignalList.run (SignalList.Push [4])
              (SignalList.example [1; 2])).2).2
        !!! SignalList.c_old c
      = [1; 2].
Proof.
  destruct (list_old_sequence_snapshot (SignalList.Push [4])
              [SignalList.Mutate SignalList.Pop;
               SignalList.Mutate (SignalList.OrderBy SignalList.ascending)]
              (SignalList.example [1; 2]) (example_wf _))
    as (calls & Hlog & Hcalls).
  exists calls. split; [exact Hlog |].
  intros c Hc. destruct (Hcalls c Hc) as (_ & _ & Hheld).
  rewrite Hheld. apply example_contents.
Defined.

(** A new empty collection, a watcher, [push(1)] and [begin()]. *)
Lemma list_begin_without_pause_witness :
  SignalList.log
    (SignalList.begin
       (SignalList.perform_all
          [SignalList.Listener 7%nat;
           SignalList.Mutate (SignalList.Push [1])]
          (SignalList.new (T:=Z) (W:=nat) None ∅)).2).2
  = [SignalList.Call 7%nat 2%positive 3%positive [1] [];
     SignalList.Call 7%nat 2%positive 1%positive [1] []].
Proof.
  rewrite (list_begin_without_pause (T:=Z) (W:=nat) None ∅
             [SignalList.Listener 7%nat;
              SignalList.Mutate (SignalList.Push [1])]).
  - by vm_compute.
  - by repeat constructor.
Defined.

(** [pause()] on [1, 2, 3], then [push(4)], [begin()], [pop()] and a
    second [begin()]. *)
Lemma list_begin_keeps_baseline_witness :
  last (SignalList.log
          (SignalList.begin
             (SignalList.perform_all
                [SignalList.Mutate (SignalList.Push [4]); SignalList.Begin;
                 SignalList.Mutate SignalList.Pop]
                (SignalList.pause (SignalList.example [1; 2; 3])).2).2).2)
  = Some (SignalList.Call 7%nat 3%positive 4%positive [1; 2; 3] [1; 2; 3]).
Proof.
  rewrite (list_begin_keeps_baseline
             [SignalList.Mutate (SignalList.Push [4]); SignalList.Begin;
              SignalList.Mutate SignalList.Pop]
             (SignalList.example [1; 2; 3])).
  - by vm_compute.
  - apply example_wf.
  - by repeat constructor.
Defined.

(** [stop] of the only watcher, then [push(4)], [begin()] and [pop()]. *)
Lemma list_stop_silences_witness :
  SignalList.calls_to 7%nat
    (SignalList.log
       (SignalList.perform_all
          [SignalList.Mutate (SignalList.Push [4]); SignalList.Begin;
           SignalList.Mutate SignalList.Pop]
          (SignalList.stop 7%nat (SignalList.example [1; 2; 3])).2).2)
  = [].
Proof.
  rewrite (list_stop_silences 7%nat
             [SignalList.Mutate (SignalList.Push [4]); SignalList.Begin;
              SignalList.Mutate SignalList.Pop]
             (SignalList.example [1; 2; 3])).
  - reflexivity.
  - apply example_wf.
  - by repeat constructor.
Defined.

(** The watcher of the example registered a second time. *)
Lemma list_listener_once_witness :
  (SignalList.listener 7%nat (SignalList.example [1; 2; 3])).2
  = SignalList.example [1; 2; 3].
Proof.
  destruct (list_listener_once 7%nat
              (SignalList.new (W:=nat) (Some 1%positive)
                 {[1%positive := [1; 2; 3]]})) as [Htwice _].
  - apply new_wf.
  - exact Htwice.
Defined.

(** [.value = a] where [a] holds 5, 6, then [a] emptied. *)
Lemma list_set_get_witness :
  SignalList.contents
    (SignalList.external_write 1%positive []
       (SignalList.set_value 1%positive (SignalList.example [5; 6])).2).2
  = [5; 6].
Proof.
  destruct (list_set_get 1%positive [] (SignalList.example [5; 6]))
    as (_ & _ & _ & Hkept).
  - apply example_wf.
  - by vm_compute.
  - rewrite Hkept. by vm_compute.
Defined.

(** [splice(-2, 1, 8, 9)] on [1, 2, 3, 4]. *)
Lemma list_splice_segment_witness :
  ∃ pre post : list Z,
    [1; 2; 3; 4]
    = pre ++ (SignalList.splice (-2) (Some 1) [8; 9]
                (SignalList.example [1; 2; 3; 4])).1 ++ post ∧
    SignalList.contents
      (SignalList.splice (-2) (Some 1) [8; 9]
         (SignalList.example [1; 2; 3; 4])).2
    = pre ++ [8; 9] ++ post ∧
    length pre = 2%nat.
Proof.
  destruct (list_splice_segment (-2) (Some 1) [8; 9]
              (SignalList.example [1; 2; 3; 4]) (example_wf _) eq_refl)
    as (pre & post & Hold & Hnew & _ & Hpre & _).
  exists pre, post. rewrite example_contents in Hold, Hpre.
  split_and!; [exact Hold | exact Hnew |].
  simpl in Hpre. lia.
Defined.

(** The even items removed from [1, 2, 3, 4]. *)
Lemma list_remove_partition_witness :
  (SignalList.remove (λ x _ _, bool_decide (x mod 2 = 0))
     (SignalList.example [1; 2; 3; 4])).1
  ++ SignalList.contents
       (SignalList.remove (λ x _ _, bool_decide (x mod 2 = 0))
          (SignalList.example [1; 2; 3; 4])).2
  ≡ₚ [1; 2; 3; 4].
Proof.
  destruct (list_remove_partition (λ x _ _, bool_decide (x mod 2 = 0))
              (SignalList.example [1; 2; 3; 4]) (example_wf _) eq_refl)
    as (_ & _ & Hperm & _).
  by rewrite example_contents in Hperm.
Defined.

(** Keeping the even items of [1, 2, 3, 4] with [filterBy] and removing
    the others with [remove]. *)
Lemma list_filterBy_agrees_with_remove_witness :
  (SignalList.filterBy (λ x _ _, bool_decide (x mod 2 = 0))
     (SignalList.example [1; 2; 3; 4])).1
  = (SignalList.remove (λ x i a, negb (bool_decide (x mod 2 = 0)))
       (SignalList.example [1; 2; 3; 4])).1.
Proof.
  destruct (list_filterBy_agrees_with_remove
              (λ x _ _, bool_decide (x mod 2 = 0))
              (SignalList.example [1; 2; 3; 4]) (example_wf _))
    as [_ Hret].
  apply Hret. rewrite example_contents. compute_done.
Defined.

(** [push(4, 5)] then [pop()] on [1, 2, 3]. *)
Lemma list_push_pop_witness :
  (SignalList.pop
     (SignalList.push [4; 5] (SignalList.example [1; 2; 3])).2).1
  = Some 5 ∧
  SignalList.contents
    (SignalList.pop
       (SignalList.push [4; 5] (SignalList.example [1; 2; 3])).2).2
  = [1; 2; 3; 4].
Proof.
  destruct (list_push_pop [4] 5 (SignalList.example [1; 2; 3])
              (example_wf _)) as (Hret & Hseq & _).
  split; [exact Hret |].
  etrans; [exact Hseq |]. by rewrite example_contents.
Defined.

(** [removeByIndex(1)] on [1, 2, 3]. *)
Lemma list_removeByIndex_valid_witness :
  (SignalList.removeByIndex 1 (SignalList.example [1; 2; 3])).1 = Some 2 ∧
  SignalList.contents
    (SignalList.removeByIndex 1 (SignalList.example [1; 2; 3])).2
  = [1; 3].
Proof.
  destruct (list_removeByIndex_valid 1 (SignalList.example [1; 2; 3])
              (example_wf _) eq_refl) as (Hret & _ & Hseq & _).
  - rewrite example_contents. simpl. lia.
  - rewrite example_contents in Hret, Hseq. split; [exact Hret | exact Hseq].
Defined.

(** [orderBy((a, b) => a - b)] twice on [3, 1, 2]. *)
Lemma list_orderBy_twice_witness :
  SignalList.log
    (SignalList.orderBy SignalList.ascending
       (SignalList.orderBy SignalList.ascending
          (SignalList.example [3; 1; 2])).2).2
  = SignalList.log
      (SignalList.orderBy SignalList.ascending
         (SignalList.example [3; 1; 2])).2.
Proof.
  apply (list_orderBy_twice SignalList.ascending
           (SignalList.example [3; 1; 2]) (example_wf _)).
  apply ascending_consistent.
Defined.

(* ===================================================================== *)
(** ** The two signal classes                                             *)
(* ===================================================================== *)

Section WatcherSignalFacts.
Context {T W : Type} `{EqDecision T, EqDecision W}.

Lemma watcher_for_of (ws : list W) (s0 : WatcherSignal.JinjxSignal T W)
    (s : Signal.JinjxSignal T W) (n o : T) :
  WatcherSignal.value s0 = Signal.value s →
  WatcherSignal.for_of ws s0 n o = Signal.for_of ws s n o.
Proof.
  intros Hv. induction ws as [| w ws IH]; simpl; [done |].
  by rewrite Hv, IH.
Qed.

Lemma watcher_perform (o : Signal.operation T W)
    (s0 : WatcherSignal.JinjxSignal T W) (s : Signal.JinjxSignal T W) :
  WatcherSignal._value s0 = Signal._value s →
  WatcherSignal.watchers s0 = Signal.listeners s →
  (WatcherSignal.perform o s0).2 = (Signal.perform Signal.changed o s).2 ∧
  WatcherSignal._value (WatcherSignal.perform o s0).1
  = Signal._value (Signal.perform Signal.changed o s).1 ∧
  WatcherSignal.watchers (WatcherSignal.perform o s0).1
  = Signal.listeners (Signal.perform Signal.changed o s).1.
Proof.
  destruct s0 as [v0 ws0], s as [v ws]. simpl. intros -> ->.
  destruct o as [w | w | n]; simpl; [done | done |].
  unfold WatcherSignal.set_value, Signal.set_value, Signal.changed. simpl.
  destruct (decide (n ≠ v)) as [Hne | Heq].
  - rewrite bool_decide_eq_true_2 by done. simpl. split_and!; [| done | done].
    unfold WatcherSignal.notify, Signal.notify. simpl.
    by apply watcher_for_of.
  - rewrite bool_decide_eq_false_2 by done. done.
Qed.

Lemma watcher_perform_all (os : list (Signal.operation T W))
    (s0 : WatcherSignal.JinjxSignal T W) (s : Signal.JinjxSignal T W) :
  WatcherSignal._value s0 = Signal._value s →
  WatcherSignal.watchers s0 = Signal.listeners s →
  (WatcherSignal.perform_all os s0).2
  = (Signal.perform_all Signal.changed os s).2 ∧
  WatcherSignal._value (WatcherSignal.perform_all os s0).1
  = Signal._value (Signal.perform_all Signal.changed os s).1 ∧
  WatcherSignal.watchers (WatcherSignal.perform_all os s0).1
  = Signal.listeners (Signal.perform_all Signal.changed os s).1.
Proof.
  revert s0 s. induction os as [| o os IH]; intros s0 s Hv Hw; simpl.
  - done.
  - destruct (watcher_perform o s0 s Hv Hw) as (Hc & Hv1 & Hw1).
    destruct (IH _ _ Hv1 Hw1) as (Hc2 & Hv2 & Hw2).
    by rewrite Hc, Hc2.
Qed.

(** X6.  The earlier class and the current one are the same signal: from the
    same initial value, any run of registrations, removals and writes
    calls the same watchers with the same arguments in the same order on
    both, as long as the current class keeps its own [changed], and
    leaves both with the same value and the same watchers. *)
Theorem watcher_signal_agrees (initialValue : T)
    (os : list (Signal.operation T W)) :
  (WatcherSignal.perform_all os (WatcherSignal.new initialValue)).2
  = (Signal.perform_all Signal.changed os (Signal.new initialValue)).2 ∧
  WatcherSignal.value
    (WatcherSignal.perform_all os (WatcherSignal.new initialValue)).1
  = Signal.value
      (Signal.perform_all Signal.changed os (Signal.new initialValue)).1 ∧
  WatcherSignal.watchers
    (WatcherSignal.perform_all os (WatcherSignal.new initialValue)).1
  = Signal.listeners
      (Signal.perform_all Signal.changed os (Signal.new initialValue)).1.
Proof. by apply watcher_perform_all. Qed.
End WatcherSignalFacts.

(* ===================================================================== *)
(** ** [propState]                                                        *)
(* ===================================================================== *)

Section PropStateFacts.
Import PropState.
Context {W : Type} `{EqDecision W}.
Implicit Types (σ : state W) (es : list (event W)) (el : element)
               (mutations : list MutationRecord) (propName : string).

(** The observer held is the only one that observes, and its callback
    closes over the [changeCb] in force. *)
Lemma release_spec σ (cur : option W) :
  (match mutator σ with
   | Some m => ∃ cb, observing σ = [(m, cb)] ∧ cur = Some cb
   | None => observing σ = [] ∧ cur = None
   end) →
  mutator (release σ) = None ∧ observing (release σ) = [] ∧
  value (release σ) = value σ ∧ made (release σ) = made σ.
Proof.
  destruct σ as [[m |] v obs k]; unfold release; simpl.
  - intros (cb & -> & _). unfold disconnect.
    rewrite filter_cons, decide_False by (simpl; by intros Hne).
    done.
  - by intros [-> _].
Qed.

Lemma deliver_fields propName (m : nat) mutations el σ :
  mutator (deliver propName m mutations el σ).1 = mutator σ ∧
  observing (deliver propName m mutations el σ).1 = observing σ ∧
  made (deliver propName m mutations el σ).1 = made σ.
Proof.
  unfold deliver.
  by destruct (list_find _ (observing σ)) as [[i [m' cb]] |].
Qed.

Lemma steps_invariant propName es σ (cur : option W) :
  (match mutator σ with
   | Some m => ∃ cb, observing σ = [(m, cb)] ∧ cur = Some cb
   | None => observing σ = [] ∧ cur = None
   end) →
  match mutator (steps propName es σ).1 with
  | Some m => ∃ cb, observing (steps propName es σ).1 = [(m, cb)]
                    ∧ in_force cur es = Some cb
  | None => observing (steps propName es σ).1 = []
            ∧ in_force cur es = None
  end.
Proof.
  revert σ cur. induction es as [| e es IH]; intros σ cur Hinv; [done |].
  destruct e as [cb | | m mutations el]; simpl.
  - apply IH. destruct (release_spec σ cur Hinv) as (_ & Hobs & _).
    unfold onChange. simpl. rewrite Hobs. by exists cb.
  - apply IH. destruct (release_spec σ cur Hinv) as (Hm & Hobs & _).
    unfold off. by rewrite Hm.
  - apply IH. destruct (deliver_fields propName m mutations el σ)
      as (-> & -> & _). done.
Qed.

Lemma prop_for_of_calls propName (cb : W) el mutations (v : string) :
  (for_of propName cb el mutations v).2
  = match length (filter (relevant propName) mutations) with
    | O => []
    | S k => Call cb (attr propName el) v
             :: replicate k (Call cb (attr propName el) (attr propName el))
    end ∧
  (for_of propName cb el mutations v).1
  = match length (filter (relevant propName) mutations) with
    | O => v
    | S k => attr propName el
    end.
Proof.
  revert v. induction mutations as [| mu mutations IH]; intros v; [done |].
  simpl. rewrite filter_cons.
  destruct (decide (type mu ≠ attributes ∨ attributeName mu ≠ Some propName))
    as [Hskip | Hact].
  - rewrite decide_False; [apply IH |]. intros [Ht Hn]. by destruct Hskip.
  - rewrite decide_True.
    + change (or_empty (Some (attr propName el))) with (attr propName el).
      cbn [fst snd length]. destruct (IH (attr propName el)) as [-> ->].
      by destruct (length (filter (relevant propName) mutations)).
    + split.
      * destruct (decide (type mu = attributes)); [done |].
        destruct Hact. by left.
      * destruct (decide (attributeName mu = Some propName)); [done |].
        destruct Hact. by right.
Qed.

(** X28.  At most one observer observes the element at any time: after any
    history of [onChange], [off] and deliveries, the observers that
    observe are the one held, whose callback calls the [changeCb] of the
    last [onChange], or none when [off] came after it; and every call
    that a delivery makes goes to that [changeCb]. *)
Theorem prop_state_one_observer propName el es :
  (observing (steps propName es (propState propName el)).1).*2
  = option_list (in_force (W:=W) None es) ∧
  (observing (steps propName es (propState propName el)).1).*1
  = option_list (mutator (steps propName es (propState propName el)).1) ∧
  ∀ (m : nat) mutations el' c,
    c ∈ (deliver propName m mutations el'
           (steps propName es (propState propName el)).1).2 →
    in_force None es = Some (c_changeCb c) ∧
    mutator (steps propName es (propState propName el)).1 = Some m.
Proof.
  pose proof (steps_invariant propName es (propState propName el) None
                (conj eq_refl eq_refl)) as Hinv.
  destruct (mutator (steps propName es (propState propName el)).1)
    as [m0 |] eqn:Hm.
  - destruct Hinv as (cb & Hobs & Hcur). rewrite Hobs, Hcur.
    split_and!; [done | done |].
    intros m mutations el' c. unfold deliver. rewrite Hobs. simpl.
    destruct (decide (m0 = m)) as [-> | Hne]; simpl.
    + destruct (prop_for_of_calls propName cb el' mutations
                  (value (steps propName es (propState propName el)).1))
        as [-> _].
      destruct (length _); [by intros ?%elem_of_nil |].
      intros [-> | Hc]%elem_of_cons; [done |].
      apply elem_of_replicate in Hc as [-> _]. done.
    + by intros ?%elem_of_nil.
  - destruct Hinv as [Hobs Hcur]. rewrite Hobs, Hcur.
    split_and!; [done | done |].
    intros m mutations el' c. unfold deliver. rewrite Hobs. simpl.
    by intros ?%elem_of_nil.
Qed.

(** X29.  One delivery reads the attribute once for all its records: with [k]
    records for the watched attribute, the [changeCb] in force is called
    [k] times, every time with the value the attribute has at the
    delivery as new value; the first call gets the value remembered from
    before as old value, every later call of the batch gets the new
    value as old value too.  The value remembered afterwards is the one
    read, or the one from before when no record was for the attribute. *)
Theorem prop_state_batch propName el es (m : nat) (cb : W) mutations el' :
  mutator (steps propName es (propState propName el)).1 = Some m →
  in_force None es = Some cb →
  (deliver propName m mutations el'
     (steps propName es (propState propName el)).1).2
  = match length (filter (relevant propName) mutations) with
    | O => []
    | S k =>
        Call cb (attr propName el')
          (value (steps propName es (propState propName el)).1)
        :: replicate k (Call cb (attr propName el') (attr propName el'))
    end ∧
  value (deliver propName m mutations el'
           (steps propName es (propState propName el)).1).1
  = match length (filter (relevant propName) mutations) with
    | O => value (steps propName es (propState propName el)).1
    | S k => attr propName el'
    end.
Proof.
  intros Hm Hcur.
  pose proof (steps_invariant propName es (propState propName el) None
                (conj eq_refl eq_refl)) as Hinv.
  rewrite Hm in Hinv. destruct Hinv as (cb' & Hobs & Hcur').
  assert (cb' = cb) as -> by congruence.
  unfold deliver. rewrite Hobs. simpl. rewrite decide_True by done. simpl.
  apply prop_for_of_calls.
Qed.

(** X30.  The value remembered changes at deliveries only: as long as nothing
    is delivered it is what the attribute held when [propState] was
    called, the empty string if the element had no such attribute,
    whatever [onChange] and [off] are called. *)
Theorem prop_state_remembers propName el es :
  Forall (λ e, ∀ m mutations el', e ≠ Deliver (W:=W) m mutations el') es →
  value (steps propName es (propState propName el)).1
  = default "" (el !! propName).
Proof.
  intros Hes.
  assert (Hgen : ∀ σ (cur : option W),
    (match mutator σ with
     | Some m => ∃ cb, observing σ = [(m, cb)] ∧ cur = Some cb
     | None => observing σ = [] ∧ cur = None
     end) →
    value (steps propName es σ).1 = value σ).
  { induction Hes as [| e es He Hes IH]; intros σ cur Hinv; [done |].
    pose proof (steps_invariant propName [e] σ cur Hinv) as Hinv1.
    change (steps propName [e] σ).1 with (step propName e σ).1 in Hinv1.
    change (value (steps propName es (step propName e σ).1).1 = value σ).
    rewrite (IH (step propName e σ).1 (in_force cur [e]) Hinv1).
    destruct e as [cb | | m mutations el']; simpl.
    - by destruct (release_spec σ cur Hinv) as (_ & _ & Hv & _).
    - by destruct (release_spec σ cur Hinv) as (_ & _ & Hv & _).
    - by destruct (He m mutations el'). }
  by rewrite (Hgen (propState propName el) None (conj eq_refl eq_refl)).
Qed.
End PropStateFacts.

(** [onChange(5)] on an element whose attribute [open] is [a], then a
    delivery of two records for [open] and one for another attribute
    while [open] is [c]. *)
Lemma prop_state_batch_witness :
  (PropState.deliver "open" 0
     [PropState.Mutation PropState.attributes (Some "open");
      PropState.Mutation PropState.attributes (Some "id");
      PropState.Mutation PropState.attributes (Some "open")]
     {["open" := "c"]}
     (PropState.steps "open" [PropState.OnChange 5%nat]
        (PropState.propState "open" {["open" := "a"]})).1).2
  = [PropState.Call 5%nat "c" "a"; PropState.Call 5%nat "c" "c"].
Proof.
  destruct (prop_state_batch "open" {["open" := "a"]}
              [PropState.OnChange 5%nat] 0 5%nat
              [PropState.Mutation PropState.attributes (Some "open");
               PropState.Mutation PropState.attributes (Some "id");
               PropState.Mutation PropState.attributes (Some "open")]
              {["open" := "c"]} eq_refl eq_refl) as [Hcalls _].
  rewrite Hcalls. by vm_compute.
Defined.

(** [onChange], [off] and [onChange] again on an element without the
    attribute. *)
Lemma prop_state_remembers_witness :
  PropState.value
    (PropState.steps "open"
       [PropState.OnChange 5%nat; PropState.Off; PropState.OnChange 6%nat]
       (PropState.propState "open" (∅ : PropState.element))).1
  = "".
Proof.
  rewrite (prop_state_remembers "open" ∅
             [PropState.OnChange 5%nat; PropState.Off;
              PropState.OnChange 6%nat]).
  - reflexivity.
  - by repeat constructor.
Defined.
